(** * github-mcp-server: the feature registry and the stdio bootstrap

    A shallow embedding of [pkg/features/features.go] and of the [main]
    package of the server (feature resolution, output decoration, process
    exit paths), with the properties of the specification stated over it. *)

From Stdlib Require Import ZArith Lia Ascii String List.
From stdpp Require Import base option list strings gmap fin_maps.

Local Open Scope string_scope.
Local Open Scope Z_scope.

(** ** Methods on a pointer receiver

    A Go method with receiver [*T] reads and updates the object it is
    called on.  Such a method is a computation over the object's state. *)

Definition State (S A : Type) : Type := S -> A * S.

Definition ret {S A : Type} (a : A) : State S A := fun s => (a, s).

Definition bind {S A B : Type} (m : State S A) (k : A -> State S B) : State S B :=
  fun s => let '(a, s') := m s in k a s'.

Notation "x <- m ;; k" := (bind m (fun x => k))
  (at level 100, m at next level, right associativity).

(** Go's [error] interface as used here: an error is its message, and a nil
    error is [None]. *)
Definition error : Type := string.

(** ** Package [features] *)

Module features.

Record Feature : Type := {
  Name : string;
  Description : string;
  Enabled : bool
}.

(** A [FeatureSet] comes from [NewFeatureSet]: its map is allocated, and a
    method is a computation over the set its receiver points to. *)
Record FeatureSet : Type := {
  Features : gmap string Feature;
  everythingOn : bool
}.

Definition NewFeatureSet : FeatureSet :=
  {| Features := ∅; everythingOn := false |}.

Definition AddFeature (name description : string) (enabled : bool)
  : State FeatureSet unit :=
  fun fs =>
    (tt, {| Features := <[name := {| Name := name;
                                     Description := description;
                                     Enabled := enabled |}]> (Features fs);
            everythingOn := everythingOn fs |}).

Definition IsEnabled (name : string) : State FeatureSet bool :=
  fun fs =>
    if everythingOn fs then (true, fs)
    else match Features fs !! name with
         | None => (false, fs)
         | Some feature => (Enabled feature, fs)
         end.

Definition EnableFeature (name : string) : State FeatureSet (option error) :=
  fun fs =>
    if String.eqb name "everything"
    then (None, {| Features := Features fs; everythingOn := true |})
    else match Features fs !! name with
         | None => (Some ("feature " +:+ name +:+ " does not exist"), fs)
         | Some feature =>
             let feature := {| Name := Name feature;
                               Description := Description feature;
                               Enabled := true |} in
             (None, {| Features := <[name := feature]> (Features fs);
                       everythingOn := everythingOn fs |})
         end.

Fixpoint EnableFeatures (names : list string) : State FeatureSet (option error) :=
  match names with
  | [] => ret None
  | name :: names =>
      err <- EnableFeature name ;;
      match err with
      | Some e => ret (Some e)
      | None => EnableFeatures names
      end
  end.

(** *** Client programs

    A client of the package is a sequence of calls on one [FeatureSet]. *)

Inductive call : Type :=
| CallAddFeature (name description : string) (enabled : bool)
| CallIsEnabled (name : string)
| CallEnableFeature (name : string)
| CallEnableFeatures (names : list string).

Definition exec (c : call) (fs : FeatureSet) : FeatureSet :=
  match c with
  | CallAddFeature name description enabled =>
      snd (AddFeature name description enabled fs)
  | CallIsEnabled name => snd (IsEnabled name fs)
  | CallEnableFeature name => snd (EnableFeature name fs)
  | CallEnableFeatures names => snd (EnableFeatures names fs)
  end.

Definition exec_all (cs : list call) (fs : FeatureSet) : FeatureSet :=
  fold_left (fun fs c => exec c fs) cs fs.

(** [mentions name c]: the call [c] registers [name], or asks to enable
    [name] or the sentinel. *)
Definition mem_string (x : string) (l : list string) : bool :=
  existsb (String.eqb x) l.

Definition mentions (name : string) (c : call) : bool :=
  match c with
  | CallAddFeature n _ _ => String.eqb name n
  | CallIsEnabled _ => false
  | CallEnableFeature n => String.eqb name n || String.eqb "everything" n
  | CallEnableFeatures ns => mem_string name ns || mem_string "everything" ns
  end.

(** A name the enable operation accepts: the sentinel or a registered key. *)
Definition valid_name (fs : FeatureSet) (name : string) : bool :=
  String.eqb name "everything" || bool_decide (is_Some (Features fs !! name)).

(** The invariant of the table: every entry is stored under its own name. *)
Definition names_match_keys (fs : FeatureSet) : Prop :=
  map_Forall (fun (k : string) (f : Feature) => Name f = k) (Features fs).

(** The entry [EnableFeature] stores back: the same feature, switched on. *)
Definition switched_on (f : Feature) : Feature :=
  {| Name := Name f; Description := Description f; Enabled := true |}.

(** The answer of [IsEnabled] and the state of a set after a program. *)
Definition enabled (name : string) (fs : FeatureSet) : bool :=
  fst (IsEnabled name fs).

Definition does_not_exist (name : string) : error :=
  "feature " +:+ name +:+ " does not exist".

End features.

(** ** The Go standard library, as far as the program calls it

    Go strings and byte slices are sequences of bytes: both are [string]
    here, whose characters are the 256 byte values. *)

Definition code (c : ascii) : N := N_of_ascii c.

Definition byte_of (n : N) : string := String (ascii_of_N n) EmptyString.

(** The quotation mark, byte 34. *)
Definition dquote : ascii := ascii_of_N 34.

Module go_strings.

(** [strings.Split(s, sep)] at a one-byte separator: the pieces of [s]
    between consecutive occurrences of [sep]; one more piece than there are
    separators. *)
Fixpoint Split (s : string) (sep : ascii) : list string :=
  match s with
  | EmptyString => [EmptyString]
  | String c s' =>
      if Ascii.eqb c sep then EmptyString :: Split s' sep
      else match Split s' sep with
           | [] => [String c EmptyString]
           | piece :: pieces => String c piece :: pieces
           end
  end.

(** [strings.Join(elems, sep)], the inverse of [Split]. *)
Fixpoint Join (elems : list string) (sep : ascii) : string :=
  match elems with
  | [] => EmptyString
  | [e] => e
  | e :: elems => e +:+ String sep (Join elems sep)
  end.

(** [strings.IndexByte(s, sep) >= 0]: the byte [sep] occurs in [s]. *)
Fixpoint occurs (sep : ascii) (s : string) : bool :=
  match s with
  | EmptyString => false
  | String c s => Ascii.eqb c sep || occurs sep s
  end.

(** [strings.Count(s, sep)] at a one-byte separator. *)
Fixpoint Count (s : string) (sep : ascii) : nat :=
  match s with
  | EmptyString => O
  | String c s => if Ascii.eqb c sep then S (Count s sep) else Count s sep
  end.

(** The white space of [unicode.IsSpace], by its UTF-8 encoding: the six
    ASCII bytes, U+0085 and U+00A0 on two bytes, and U+1680, U+2000..U+200A,
    U+2028, U+2029, U+202F, U+205F and U+3000 on three. *)
Definition asciiSpace (c : ascii) : bool :=
  let n := code c in
  (N.leb 9 n && N.leb n 13) || N.eqb n 32.

Definition space2 (c1 c2 : ascii) : bool :=
  N.eqb (code c1) 194 && (N.eqb (code c2) 133 || N.eqb (code c2) 160).

Definition space3 (c1 c2 c3 : ascii) : bool :=
  let '(a, b, c) := (code c1, code c2, code c3) in
  (N.eqb a 225 && N.eqb b 154 && N.eqb c 128)
  || (N.eqb a 226 && N.eqb b 128
      && ((N.leb 128 c && N.leb c 138) || N.eqb c 168 || N.eqb c 169 || N.eqb c 175))
  || (N.eqb a 226 && N.eqb b 129 && N.eqb c 159)
  || (N.eqb a 227 && N.eqb b 128 && N.eqb c 128).

(** [strings.TrimLeftFunc(s, unicode.IsSpace)]. *)
Fixpoint trimLeft (s : list ascii) : list ascii :=
  match s with
  | [] => []
  | c1 :: s1 =>
      if asciiSpace c1 then trimLeft s1
      else match s1 with
           | [] => s
           | c2 :: s2 =>
               if space2 c1 c2 then trimLeft s2
               else match s2 with
                    | [] => s
                    | c3 :: s3 => if space3 c1 c2 c3 then trimLeft s3 else s
                    end
           end
  end.

(** [strings.TrimRightFunc(s, unicode.IsSpace)], on the reversed bytes: the
    last rune of [s] is decoded from its last bytes. *)
Fixpoint trimRightRev (r : list ascii) : list ascii :=
  match r with
  | [] => []
  | c1 :: r1 =>
      if asciiSpace c1 then trimRightRev r1
      else match r1 with
           | [] => r
           | c2 :: r2 =>
               if space2 c2 c1 then trimRightRev r2
               else match r2 with
                    | [] => r
                    | c3 :: r3 => if space3 c3 c2 c1 then trimRightRev r3 else r
                    end
           end
  end.

(** [strings.TrimSpace(s)]: [s] without its leading and trailing white
    space. *)
Definition TrimSpace (s : string) : string :=
  string_of_list_ascii
    (rev (trimRightRev (rev (trimLeft (list_ascii_of_string s))))).

End go_strings.

(** [encoding/json]: the validating scanner, [Valid] and [Indent]. *)

Module json.

(** The result of one scanner step. *)
Inductive opcode : Type :=
| scanContinue | scanBeginLiteral | scanBeginObject | scanObjectKey
| scanObjectValue | scanEndObject | scanBeginArray | scanArrayValue
| scanEndArray | scanSkipSpace | scanEnd | scanError.

Inductive parseKind : Type :=
| parseObjectKey | parseObjectValue | parseArrayValue.

(** The scanner holds its next step as a function value; the step functions
    are the constructors of [stepFn] and [apply] runs one of them. *)
Inductive stepFn : Type :=
| stateBeginValueOrEmpty | stateBeginValue | stateBeginStringOrEmpty
| stateBeginString | stateEndValue | stateEndTop
| stateInString | stateInStringEsc | stateInStringEscU | stateInStringEscU1
| stateInStringEscU12 | stateInStringEscU123
| stateNeg | state1 | state0 | stateDot | stateDot0 | stateE | stateESign
| stateE0
| stateT | stateTr | stateTru | stateF | stateFa | stateFal | stateFals
| stateN | stateNu | stateNul
| stateError.

(** The parse stack [parseState] has its top at the head of the list. *)
Record scanner : Type := {
  step : stepFn;
  endTop : bool;
  parseState : list parseKind;
  err : option error;
  bytes : Z
}.

Definition maxNestingDepth : Z := 10000.

Definition set_step (s : scanner) (f : stepFn) : scanner :=
  {| step := f; endTop := endTop s; parseState := parseState s;
     err := err s; bytes := bytes s |}.

Definition set_parseState (s : scanner) (ps : list parseKind) : scanner :=
  {| step := step s; endTop := endTop s; parseState := ps;
     err := err s; bytes := bytes s |}.

Definition newScanner : scanner :=
  {| step := stateBeginValue; endTop := false; parseState := [];
     err := None; bytes := 0 |}.

Definition hexdigit (n : N) : ascii :=
  ascii_of_N (if N.ltb n 10 then 48 + n else 87 + n).

(** [strconv.Quote(string(c))] without its quotation marks, for a byte. *)
Definition quoted (c : ascii) : string :=
  let n := code c in
  if N.eqb n 7 then "\a" else if N.eqb n 8 then "\b"
  else if N.eqb n 12 then "\f" else if N.eqb n 10 then "\n"
  else if N.eqb n 13 then "\r" else if N.eqb n 9 then "\t"
  else if N.eqb n 11 then "\v" else if N.eqb n 92 then "\\"
  else if N.ltb n 32 || N.eqb n 127
  then "\x" +:+ String (hexdigit (n / 16)) (String (hexdigit (n mod 16)) EmptyString)
  else if N.ltb n 128 then String c EmptyString
  else if N.leb n 160 || N.eqb n 173
  then "\u00" +:+ String (hexdigit (n / 16)) (String (hexdigit (n mod 16)) EmptyString)
  else byte_of (192 + n / 64) +:+ byte_of (128 + n mod 64).

Definition quoteChar (c : ascii) : string :=
  if Ascii.eqb c "'" then "'\''"
  else if Ascii.eqb c dquote then String "'" (String dquote "'")
  else "'" +:+ quoted c +:+ "'".

(** [s.error(c, context)]: record a syntax error and stop scanning. *)
Definition scan_error (s : scanner) (c : ascii) (context : string)
  : opcode * scanner :=
  (scanError,
   {| step := stateError; endTop := endTop s; parseState := parseState s;
      err := Some ("invalid character " +:+ quoteChar c +:+ " " +:+ context);
      bytes := bytes s |}).

Definition pushParseState (s : scanner) (c : ascii) (newParseState : parseKind)
  (successState : opcode) : opcode * scanner :=
  let s := set_parseState s (newParseState :: parseState s) in
  if Z.of_nat (length (parseState s)) <=? maxNestingDepth
  then (successState, s)
  else scan_error s c "exceeded max depth".

Definition popParseState (s : scanner) : scanner :=
  let ps := tail (parseState s) in
  match ps with
  | [] => {| step := stateEndTop; endTop := true; parseState := ps;
             err := err s; bytes := bytes s |}
  | _ :: _ => {| step := stateEndValue; endTop := endTop s; parseState := ps;
                 err := err s; bytes := bytes s |}
  end.

Definition isSpace (c : ascii) : bool :=
  let n := code c in
  N.eqb n 32 || N.eqb n 9 || N.eqb n 13 || N.eqb n 10.

Definition isDigit (c : ascii) : bool :=
  N.leb 48 (code c) && N.leb (code c) 57.

Definition isDigit19 (c : ascii) : bool :=
  N.leb 49 (code c) && N.leb (code c) 57.

Definition isHex (c : ascii) : bool :=
  let n := code c in
  isDigit c || (N.leb 97 n && N.leb n 102) || (N.leb 65 n && N.leb n 70).

Definition do_stateEndTop (s : scanner) (c : ascii) : opcode * scanner :=
  if negb (isSpace c)
  then (scanEnd, snd (scan_error s c "after top-level value"))
  else (scanEnd, s).

Definition do_stateEndValue (s : scanner) (c : ascii) : opcode * scanner :=
  match parseState s with
  | [] =>
      do_stateEndTop
        {| step := stateEndTop; endTop := true; parseState := parseState s;
           err := err s; bytes := bytes s |} c
  | ps :: rest =>
      if isSpace c then (scanSkipSpace, set_step s stateEndValue)
      else match ps with
           | parseObjectKey =>
               if Ascii.eqb c ":"
               then (scanObjectKey,
                     set_step (set_parseState s (parseObjectValue :: rest))
                              stateBeginValue)
               else scan_error s c "after object key"
           | parseObjectValue =>
               if Ascii.eqb c ","
               then (scanObjectValue,
                     set_step (set_parseState s (parseObjectKey :: rest))
                              stateBeginString)
               else if Ascii.eqb c "}"
               then (scanEndObject, popParseState s)
               else scan_error s c "after object key:value pair"
           | parseArrayValue =>
               if Ascii.eqb c ","
               then (scanArrayValue, set_step s stateBeginValue)
               else if Ascii.eqb c "]"
               then (scanEndArray, popParseState s)
               else scan_error s c "after array element"
           end
  end.

Definition do_stateBeginValue (s : scanner) (c : ascii) : opcode * scanner :=
  if isSpace c then (scanSkipSpace, s)
  else if Ascii.eqb c "{"
  then pushParseState (set_step s stateBeginStringOrEmpty) c parseObjectKey
                      scanBeginObject
  else if Ascii.eqb c "["
  then pushParseState (set_step s stateBeginValueOrEmpty) c parseArrayValue
                      scanBeginArray
  else if Ascii.eqb c dquote then (scanBeginLiteral, set_step s stateInString)
  else if Ascii.eqb c "-" then (scanBeginLiteral, set_step s stateNeg)
  else if Ascii.eqb c "0" then (scanBeginLiteral, set_step s state0)
  else if Ascii.eqb c "t" then (scanBeginLiteral, set_step s stateT)
  else if Ascii.eqb c "f" then (scanBeginLiteral, set_step s stateF)
  else if Ascii.eqb c "n" then (scanBeginLiteral, set_step s stateN)
  else if isDigit19 c then (scanBeginLiteral, set_step s state1)
  else scan_error s c "looking for beginning of value".

Definition do_stateBeginString (s : scanner) (c : ascii) : opcode * scanner :=
  if isSpace c then (scanSkipSpace, s)
  else if Ascii.eqb c dquote then (scanBeginLiteral, set_step s stateInString)
  else scan_error s c "looking for beginning of object key string".

Definition do_state0 (s : scanner) (c : ascii) : opcode * scanner :=
  if Ascii.eqb c "." then (scanContinue, set_step s stateDot)
  else if Ascii.eqb c "e" || Ascii.eqb c "E"
  then (scanContinue, set_step s stateE)
  else do_stateEndValue s c.

Definition do_stateESign (s : scanner) (c : ascii) : opcode * scanner :=
  if isDigit c then (scanContinue, set_step s stateE0)
  else scan_error s c "in exponent of numeric literal".

(** One byte of a literal [true], [false] or [null]. *)
Definition expect (s : scanner) (c want : ascii) (next : stepFn)
  (context : string) : opcode * scanner :=
  if Ascii.eqb c want then (scanContinue, set_step s next)
  else scan_error s c context.

Definition expectHex (s : scanner) (c : ascii) (next : stepFn)
  : opcode * scanner :=
  if isHex c then (scanContinue, set_step s next)
  else scan_error s c "in \u hexadecimal character escape".

(** [s.step(s, c)] for the step function [f]. *)
Definition apply (f : stepFn) (s : scanner) (c : ascii) : opcode * scanner :=
  match f with
  | stateBeginValueOrEmpty =>
      if isSpace c then (scanSkipSpace, s)
      else if Ascii.eqb c "]" then do_stateEndValue s c
      else do_stateBeginValue s c
  | stateBeginValue => do_stateBeginValue s c
  | stateBeginStringOrEmpty =>
      if isSpace c then (scanSkipSpace, s)
      else if Ascii.eqb c "}"
      then do_stateEndValue
             (set_parseState s (parseObjectValue :: tail (parseState s))) c
      else do_stateBeginString s c
  | stateBeginString => do_stateBeginString s c
  | stateEndValue => do_stateEndValue s c
  | stateEndTop => do_stateEndTop s c
  | stateInString =>
      if Ascii.eqb c dquote then (scanContinue, set_step s stateEndValue)
      else if Ascii.eqb c "\" then (scanContinue, set_step s stateInStringEsc)
      else if N.ltb (code c) 32 then scan_error s c "in string literal"
      else (scanContinue, s)
  | stateInStringEsc =>
      if Ascii.eqb c "b" || Ascii.eqb c "f" || Ascii.eqb c "n"
         || Ascii.eqb c "r" || Ascii.eqb c "t" || Ascii.eqb c "\"
         || Ascii.eqb c "/" || Ascii.eqb c dquote
      then (scanContinue, set_step s stateInString)
      else if Ascii.eqb c "u" then (scanContinue, set_step s stateInStringEscU)
      else scan_error s c "in string escape code"
  | stateInStringEscU => expectHex s c stateInStringEscU1
  | stateInStringEscU1 => expectHex s c stateInStringEscU12
  | stateInStringEscU12 => expectHex s c stateInStringEscU123
  | stateInStringEscU123 => expectHex s c stateInString
  | stateNeg =>
      if Ascii.eqb c "0" then (scanContinue, set_step s state0)
      else if isDigit19 c then (scanContinue, set_step s state1)
      else scan_error s c "in numeric literal"
  | state1 =>
      if isDigit c then (scanContinue, set_step s state1) else do_state0 s c
  | state0 => do_state0 s c
  | stateDot =>
      if isDigit c then (scanContinue, set_step s stateDot0)
      else scan_error s c "after decimal point in numeric literal"
  | stateDot0 =>
      if isDigit c then (scanContinue, s)
      else if Ascii.eqb c "e" || Ascii.eqb c "E"
      then (scanContinue, set_step s stateE)
      else do_stateEndValue s c
  | stateE =>
      if Ascii.eqb c "+" || Ascii.eqb c "-"
      then (scanContinue, set_step s stateESign)
      else do_stateESign s c
  | stateESign => do_stateESign s c
  | stateE0 =>
      if isDigit c then (scanContinue, s) else do_stateEndValue s c
  | stateT => expect s c "r" stateTr "in literal true (expecting 'r')"
  | stateTr => expect s c "u" stateTru "in literal true (expecting 'u')"
  | stateTru => expect s c "e" stateEndValue "in literal true (expecting 'e')"
  | stateF => expect s c "a" stateFa "in literal false (expecting 'a')"
  | stateFa => expect s c "l" stateFal "in literal false (expecting 'l')"
  | stateFal => expect s c "s" stateFals "in literal false (expecting 's')"
  | stateFals => expect s c "e" stateEndValue "in literal false (expecting 'e')"
  | stateN => expect s c "u" stateNu "in literal null (expecting 'u')"
  | stateNu => expect s c "l" stateNul "in literal null (expecting 'l')"
  | stateNul => expect s c "l" stateEndValue "in literal null (expecting 'l')"
  | stateError => (scanError, s)
  end.

(** [scan.bytes++; scan.step(scan, c)]. *)
Definition feed (s : scanner) (c : ascii) : opcode * scanner :=
  let s := {| step := step s; endTop := endTop s; parseState := parseState s;
              err := err s; bytes := bytes s + 1 |} in
  apply (step s) s c.

(** [s.eof()]: the input has ended. *)
Definition eof (s : scanner) : opcode * scanner :=
  match err s with
  | Some _ => (scanError, s)
  | None =>
      if endTop s then (scanEnd, s)
      else let s := snd (apply (step s) s " ") in
           if endTop s then (scanEnd, s)
           else match err s with
                | Some _ => (scanError, s)
                | None =>
                    (scanError,
                     {| step := step s; endTop := endTop s;
                        parseState := parseState s;
                        err := Some "unexpected end of JSON input";
                        bytes := bytes s |})
                end
  end.

(** Once the scanner has stopped on an error, the error is recorded. *)
Definition recorded (s : scanner) : Prop :=
  step s = stateError -> is_Some (err s).

Definition sound (r : opcode * scanner) : Prop :=
  recorded (snd r) /\ (fst r = scanError -> is_Some (err (snd r))).

(** What the end of the input makes of a scanner: [checkValid]'s result. *)
Definition verdict (s : scanner) : option error :=
  match eof s with
  | (scanError, s) => err s
  | _ => None
  end.

(** [checkValid(data, scan)] and [Valid(data)]. *)
Fixpoint checkValid_loop (data : list ascii) (scan : scanner) : option error :=
  match data with
  | [] => match eof scan with
          | (scanError, scan) => err scan
          | _ => None
          end
  | c :: data =>
      match feed scan c with
      | (scanError, scan) => err scan
      | (_, scan) => checkValid_loop data scan
      end
  end.

Definition checkValid (data : string) : option error :=
  checkValid_loop (list_ascii_of_string data) newScanner.

Definition Valid (data : string) : bool :=
  match checkValid data with None => true | Some _ => false end.

Definition appendNewline (dst prefix indent : string) (depth : Z) : string :=
  let dst := dst +:+ byte_of 10 in
  let dst := dst +:+ prefix in
  fold_left (fun dst _ => dst +:+ indent) (seq 0 (Z.to_nat depth)) dst.

Definition is_end (v : opcode) : bool :=
  match v with scanEndObject | scanEndArray => true | _ => false end.

Definition push (dst : string) (c : ascii) : string :=
  dst +:+ String c EmptyString.

(** The loop of [appendIndent] over the bytes of [src]; it returns the
    scanner and the destination when the loop ends or breaks. *)
Fixpoint appendIndent_loop (src : list ascii) (prefix indent : string)
  (scan : scanner) (needIndent : bool) (depth : Z) (dst : string)
  : scanner * string :=
  match src with
  | [] => (scan, dst)
  | c :: src =>
      let '(v, scan) := feed scan c in
      match v with
      | scanSkipSpace =>
          appendIndent_loop src prefix indent scan needIndent depth dst
      | scanError => (scan, dst)
      | _ =>
          let '(needIndent, depth, dst) :=
            if needIndent && negb (is_end v)
            then (false, depth + 1, appendNewline dst prefix indent (depth + 1))
            else (needIndent, depth, dst) in
          match v with
          | scanContinue =>
              appendIndent_loop src prefix indent scan needIndent depth
                                (push dst c)
          | _ =>
              if Ascii.eqb c "{" || Ascii.eqb c "["
              then appendIndent_loop src prefix indent scan true depth
                                     (push dst c)
              else if Ascii.eqb c ","
              then appendIndent_loop src prefix indent scan needIndent depth
                     (appendNewline (push dst c) prefix indent depth)
              else if Ascii.eqb c ":"
              then appendIndent_loop src prefix indent scan needIndent depth
                     (push (push dst c) " ")
              else if Ascii.eqb c "}" || Ascii.eqb c "]"
              then if needIndent
                   then appendIndent_loop src prefix indent scan false depth
                                          (push dst c)
                   else appendIndent_loop src prefix indent scan needIndent
                          (depth - 1)
                          (push (appendNewline dst prefix indent (depth - 1)) c)
              else appendIndent_loop src prefix indent scan needIndent depth
                                     (push dst c)
          end
      end
  end.

(** [Indent(dst, src, prefix, indent)] on an empty buffer [dst]: the
    indented form of [src], or the scanner's error and nothing in [dst]. *)
Definition Indent (src prefix indent : string) : string + error :=
  let '(scan, dst) :=
    appendIndent_loop (list_ascii_of_string src) prefix indent newScanner
                      false 0 EmptyString in
  match eof scan with
  | (scanError, scan) =>
      inr (match err scan with Some e => e | None => EmptyString end)
  | _ => inl dst
  end.

End json.

(** ** Package [main] *)

(** What the process leaves outside itself: the lines printed on standard
    output and on standard error, and the lines appended to the log file.
    A logger's line is its message, without time stamp and level. *)
Record World : Type := {
  stdout : list string;
  stderr : list string;
  logfile : list string
}.

Definition initial : World := {| stdout := []; stderr := []; logfile := [] |}.

Definition only_stderr (lines : list string) : World :=
  {| stdout := []; stderr := lines; logfile := [] |}.

Definition print_stdout (line : string) : State World unit :=
  fun w => (tt, {| stdout := (stdout w ++ [line])%list; stderr := stderr w;
                   logfile := logfile w |}).

Definition print_stderr (line : string) : State World unit :=
  fun w => (tt, {| stdout := stdout w; stderr := (stderr w ++ [line])%list;
                   logfile := logfile w |}).

Definition append_logfile (line : string) : State World unit :=
  fun w => (tt, {| stdout := stdout w; stderr := stderr w;
                   logfile := (logfile w ++ [line])%list |}).

Fixpoint print_all (print : string -> State World unit) (lines : list string)
  : State World unit :=
  match lines with
  | [] => ret tt
  | line :: lines => _ <- print line ;; print_all print lines
  end.

(** Printing only adds lines: [w'] holds what [w] holds, and more. *)
Definition grows (w w' : World) : Prop :=
  stdout w `prefix_of` stdout w'
  /\ stderr w `prefix_of` stderr w'
  /\ logfile w `prefix_of` logfile w'.

(** A computation of the process either goes on with a value or has called
    [os.Exit] with a status. *)
Definition Proc (A : Type) : Type := State World (A + Z).

Definition pure {A : Type} (a : A) : Proc A := ret (inl a).

Definition os_Exit {A : Type} (status : Z) : Proc A := ret (inr status).

Definition lift {A : Type} (m : State World A) : Proc A :=
  a <- m ;; ret (inl a).

Definition andThen {A B : Type} (m : Proc A) (k : A -> Proc B) : Proc B :=
  r <- m ;;
  match r with
  | inl a => k a
  | inr status => ret (inr status)
  end.

Notation "x <~ m ;; k" := (andThen m (fun x => k))
  (at level 100, m at next level, right associativity).

(** The interface [io.Writer]. *)
Record Writer : Type := { Write : string -> State World (Z * option error) }.

Definition len (p : string) : Z := Z.of_nat (String.length p).

(** [os.Stdout], taken to accept every write: the bytes of each write are
    one entry of [stdout]. *)
Definition os_Stdout : Writer :=
  {| Write := fun p => _ <- print_stdout p ;; ret (len p, None) |}.

(** The logrus logger: where it writes and from which level on. *)
Inductive Level : Type := InfoLevel | DebugLevel.

Inductive Output : Type := OutStderr | OutFile.

Record Logger : Type := { level : Level; Out : Output }.

Definition log_New : Logger := {| level := InfoLevel; Out := OutStderr |}.

Definition emit (l : Logger) (line : string) : State World unit :=
  match Out l with
  | OutStderr => print_stderr line
  | OutFile => append_logfile line
  end.

(** [logger.Infof]: both levels in use let an Info entry through. *)
Definition Infof (l : Logger) (line : string) : State World unit :=
  emit l line.

(** [logger.Fatal]: the entry, then [os.Exit(1)]. *)
Definition Logger_Fatal {A : Type} (l : Logger) (line : string) : Proc A :=
  _ <~ lift (emit l line) ;; os_Exit 1.

(** [log.Fatal] of the standard library: the operands printed on standard
    error, then [os.Exit(1)].  No space separates a string operand from the
    next one. *)
Definition stdlog_Fatal {A : Type} (msg : string) (err : error) : Proc A :=
  _ <~ lift (print_stderr (msg +:+ err)) ;; os_Exit 1.

Module iolog.

(** Modelled from the spec: the transcript-logging decorator [IOLogger] of
    [pkg/log], whose source is not part of the material.  It "mirrors every
    byte read/written to the log sink before passing it through unchanged";
    this is its output side. *)
Record IOLogger : Type := { writer : Writer; logger : Logger }.

(** Modelled from the spec: [IOLogger.Write] of [pkg/log], which mirrors the
    bytes it is given to the log sink and then passes them on unchanged. *)
Definition IOLogger_Write (l : IOLogger) (p : string)
  : State World (Z * option error) :=
  _ <- Infof (logger l) p ;;
  Write (writer l) p.

(** Modelled from the spec: [IOLogger.Read] of [pkg/log], as what a read of
    the bytes [p] through the decorator leaves behind: the bytes mirrored to
    the log sink. *)
Definition IOLogger_Read (lg : Logger) (p : string) : State World unit :=
  Infof lg p.

(** Modelled from the spec: [NewIOLogger] of [pkg/log], as the writer it
    returns. *)
Definition NewIOLogger (w : Writer) (lg : Logger) : Writer :=
  {| Write := IOLogger_Write {| writer := w; logger := lg |} |}.

End iolog.

Module main.

Import features.

(** Everything the process reads from outside: the environment, the values
    viper resolved from flags and [APP_] variables, what cobra dispatched
    to, and the results of the external calls.  Cobra either fails on the
    command line, with the lines it printed itself on standard error, or
    runs the stdio command, or serves another request (help, version) with
    the lines it printed on standard output. *)
Inductive dispatch : Type :=
| DispatchError (err : error) (printed : list string)
| DispatchStdio
| DispatchOther (printed : list string).

Inductive outcome : Type :=
| SignalFirst
| ListenReturned (err : option error).

(** A line printed by code outside this package, with the stream it is
    printed on. *)
Inductive output : Type :=
| OnStdout (line : string)
| OnStderr (line : string).

(** Modelled from the spec: a call of [runStdioServer] into the packages
    [translations], [github] and [server] (source lines 204 to 216), whose
    code is not part of the material.  The call returns, having printed
    some lines, or ends the process: "each step may abort the process with
    a fatal diagnostic", with a status that is not zero. *)
Inductive external : Type :=
| Returns (printed : list output)
| Aborts (printed : list output) (diagnostic : output) (status : positive).

(** What the protocol server does while it serves: it reads bytes from its
    input, writes bytes to its output, or writes a line to its error
    logger. *)
Inductive event : Type :=
| Reads (p : string)
| Writes (p : string)
| Reports (line : string).

(** One run, as seen from outside: besides the environment, the flags and
    cobra's dispatch, the results of opening the log file and of
    [WithEnterpriseURLs], how the wait of [runStdioServer] ended, what the
    construction of the server ([construct]) and the export of the
    translations ([dumpTranslations]) did, and what the serving loop did
    and when. *)
Record Scenario : Type := {
  environ : gmap string string;
  flag_features : list string;
  flag_read_only : bool;
  flag_log_file : string;
  flag_enable_command_logging : bool;
  flag_export_translations : bool;
  flag_gh_host : string;
  flag_pretty_print_json : bool;
  cobra : dispatch;
  openFile : option error;
  withEnterpriseURLs : option error;
  serve : outcome;
  construct : external;
  dumpTranslations : external;
  early : list event;
  served : list event;
  late : list event
}.

(** [os.Getenv]: the empty string when the variable is not set. *)
Definition Getenv (env : gmap string string) (key : string) : string :=
  default EmptyString (env !! key).

Definition isEmpty (s : string) : bool := String.eqb s EmptyString.

(** The environment in which only GITHUB_FEATURES is set. *)
Definition env_features (value : string) : gmap string string :=
  {[ "GITHUB_FEATURES" := value ]}.

(** The fixed catalog of [initFeatures], every feature disabled. *)
Definition catalog : State FeatureSet unit :=
  _ <- AddFeature "repos" "Repository related tools" false ;;
  _ <- AddFeature "issues" "Issues related tools" false ;;
  _ <- AddFeature "search" "Search related tools" false ;;
  _ <- AddFeature "pull_requests" "Pull request related tools" false ;;
  _ <- AddFeature "code_security" "Code security related tools" false ;;
  AddFeature "experiments"
             "Experimental features that are not considered stable yet" false.

(** The set [initFeatures] starts from. *)
Definition registry : FeatureSet := snd (catalog NewFeatureSet).

(** The list of names [initFeatures] enables: the environment has
    precedence over the command line. *)
Definition resolveFeatures (env : gmap string string)
  (passedFeatures : list string) : list string :=
  let envFeats := Getenv env "GITHUB_FEATURES" in
  if negb (isEmpty envFeats)
  then fold_left (fun passedFeatures feature =>
                    (passedFeatures ++ [go_strings.TrimSpace feature])%list)
                 (go_strings.Split envFeats ",") []
  else passedFeatures.

Definition initFeatures (env : gmap string string)
  (passedFeatures : list string) : FeatureSet + error :=
  let '(_, fs) := catalog NewFeatureSet in
  let passedFeatures := resolveFeatures env passedFeatures in
  match EnableFeatures passedFeatures fs with
  | (Some err, _) => inr err
  | (None, fs) => inl fs
  end.

Definition initLogger (sc : Scenario) (outPath : string) : Logger + error :=
  if isEmpty outPath then inl log_New
  else match openFile sc with
       | Some err => inr ("failed to open log file: " +:+ err)
       | None => inl {| level := DebugLevel; Out := OutFile |}
       end.

Record runConfig : Type := {
  readOnly : bool;
  logger : Logger;
  logCommands : bool;
  exportTranslations : bool;
  prettyPrintJSON : bool;
  features : FeatureSet
}.

(** [JSONPrettyPrintWriter] pretty prints its input to indented JSON. *)
Record JSONPrettyPrintWriter : Type := { writer : Writer }.

Definition JSONPrettyPrintWriter_Write (j : JSONPrettyPrintWriter) (p : string)
  : State World (Z * option error) :=
  match json.Indent p EmptyString (byte_of 9) with
  | inr err => ret (0, Some err)
  | inl prettyJSON => Write (writer j) prettyJSON
  end.

Definition asWriter (j : JSONPrettyPrintWriter) : Writer :=
  {| Write := JSONPrettyPrintWriter_Write j |}.

(** The output stream [runStdioServer] hands to the protocol server. *)
Definition serverOut (cfg : runConfig) : Writer :=
  let out := os_Stdout in
  let out := if logCommands cfg then iolog.NewIOLogger out (logger cfg)
             else out in
  let out := if prettyPrintJSON cfg then asWriter {| writer := out |}
             else out in
  out.

(** The line [runStdioServer] prints on standard error once it serves. *)
Definition banner : string := "GitHub MCP Server running on stdio".

(** The enterprise host: GH_HOST first, then the flag. *)
Definition ghHost (sc : Scenario) : string :=
  let host := Getenv (environ sc) "GH_HOST" in
  if isEmpty host then flag_gh_host sc else host.

(** The GitHub client of [runStdioServer]: the error of
    [WithEnterpriseURLs] when a host is given. *)
Definition ghClient (sc : Scenario) : option error :=
  if negb (isEmpty (ghHost sc)) then withEnterpriseURLs sc else None.

Definition print_output (o : output) : State World unit :=
  match o with
  | OnStdout line => print_stdout line
  | OnStderr line => print_stderr line
  end.

Fixpoint print_outputs (printed : list output) : State World unit :=
  match printed with
  | [] => ret tt
  | o :: printed => _ <- print_output o ;; print_outputs printed
  end.

Definition external_call (e : external) : Proc unit :=
  match e with
  | Returns printed => lift (print_outputs printed)
  | Aborts printed diagnostic status =>
      _ <~ lift (print_outputs printed) ;;
      _ <~ lift (print_output diagnostic) ;;
      os_Exit (Zpos status)
  end.

(** Source lines 204 to 216: the translations helper and the construction
    of the protocol server (which is given the client, the features and the
    read-only flag), then the export of the translations when it is asked
    for.  The server's error logger is set to the logger of the
    configuration. *)
Definition startup (sc : Scenario) (cfg : runConfig) : Proc unit :=
  _ <~ external_call (construct sc) ;;
  if exportTranslations cfg then external_call (dumpTranslations sc)
  else pure tt.

(** The first of these calls that ends the process, with its status. *)
Definition startupAbort (sc : Scenario) (export : bool) : option positive :=
  match construct sc with
  | Aborts _ _ status => Some status
  | Returns _ =>
      if export
      then match dumpTranslations sc with
           | Aborts _ _ status => Some status
           | Returns _ => None
           end
      else None
  end.

(** The input stream [runStdioServer] hands to the protocol server, as
    what a read of the bytes [p] through it leaves behind. *)
Definition serverIn (cfg : runConfig) (p : string) : State World unit :=
  if logCommands cfg then iolog.IOLogger_Read (logger cfg) p else ret tt.

(** The error logger of the protocol server: [stdlog.New] on the writer of
    the logger, with the prefix "stdioserver". *)
Definition errorLogger (cfg : runConfig) (line : string) : State World unit :=
  Infof (logger cfg) ("stdioserver" +:+ line).

(** One step of the serving loop, on the streams of source lines 221 to
    231.  What the server makes of the result of a write is its own
    affair. *)
Definition perform (cfg : runConfig) (e : event) : State World unit :=
  match e with
  | Reads p => serverIn cfg p
  | Writes p => _ <- Write (serverOut cfg) p ;; ret tt
  | Reports line => errorLogger cfg line
  end.

Fixpoint perform_all (cfg : runConfig) (events : list event)
  : State World unit :=
  match events with
  | [] => ret tt
  | e :: events => _ <- perform cfg e ;; perform_all cfg events
  end.

(** Source lines 218 to 247.  The serving loop runs beside the main task:
    the scenario gives what the loop did before the banner ([early]),
    between the banner and the moment the wait ended ([served]) and, when a
    signal ended the wait, between the shutdown line and the end of the
    process ([late]). *)
Definition serveLoop (sc : Scenario) (cfg : runConfig)
  : State World (option error) :=
  _ <- perform_all cfg (early sc) ;;
  _ <- print_stderr banner ;;
  _ <- perform_all cfg (served sc) ;;
  match serve sc with
  | SignalFirst =>
      _ <- Infof (logger cfg) "shutting down server..." ;;
      _ <- perform_all cfg (late sc) ;;
      ret None
  | ListenReturned (Some err) => ret (Some ("error running server: " +:+ err))
  | ListenReturned None => ret None
  end.

(** [runStdioServer]: the token, the client, the construction of the
    server, and the serving loop with the wait for its end or for a
    signal. *)
Definition runStdioServer (sc : Scenario) (cfg : runConfig)
  : Proc (option error) :=
  let token := Getenv (environ sc) "GITHUB_PERSONAL_ACCESS_TOKEN" in
  _ <~ (if isEmpty token
        then Logger_Fatal (logger cfg) "GITHUB_PERSONAL_ACCESS_TOKEN not set"
        else pure tt) ;;
  match ghClient sc with
  | Some err =>
      pure (Some ("failed to create GitHub client with host: " +:+ err))
  | None =>
      _ <~ startup sc cfg ;;
      lift (serveLoop sc cfg)
  end.

(** The [Run] function of [stdioCmd]. *)
Definition stdioCmd_Run (sc : Scenario) : Proc unit :=
  let logFile := flag_log_file sc in
  let readOnly := flag_read_only sc in
  let exportTranslations := flag_export_translations sc in
  let prettyPrintJSON := flag_pretty_print_json sc in
  match initLogger sc logFile with
  | inr err => stdlog_Fatal "Failed to initialize logger:" err
  | inl logger =>
      let enabledFeatures := flag_features sc in
      match initFeatures (environ sc) enabledFeatures with
      | inr err => stdlog_Fatal "Failed to initialize features:" err
      | inl features =>
          let logCommands := flag_enable_command_logging sc in
          let cfg := {| readOnly := readOnly;
                        logger := logger;
                        logCommands := logCommands;
                        exportTranslations := exportTranslations;
                        prettyPrintJSON := prettyPrintJSON;
                        features := features |} in
          err <~ runStdioServer sc cfg ;;
          match err with
          | Some err => stdlog_Fatal "failed to run stdio server:" err
          | None => pure tt
          end
      end
  end.

(** [rootCmd.Execute()]: cobra reports an error of its own, or runs the
    command it dispatched to and reports none. *)
Definition rootCmd_Execute (sc : Scenario) : Proc (option error) :=
  match cobra sc with
  | DispatchError err printed =>
      _ <~ lift (print_all print_stderr printed) ;; pure (Some err)
  | DispatchStdio => _ <~ stdioCmd_Run sc ;; pure None
  | DispatchOther printed =>
      _ <~ lift (print_all print_stdout printed) ;; pure None
  end.

Definition main (sc : Scenario) : Proc unit :=
  err <~ rootCmd_Execute sc ;;
  match err with
  | Some err => _ <~ lift (print_stdout err) ;; os_Exit 1
  | None => pure tt
  end.

(** The configuration [stdioCmd] builds from the resolved values. *)
Definition configOf (sc : Scenario) (lg : Logger) (fs : FeatureSet)
  : runConfig :=
  {| readOnly := flag_read_only sc;
     logger := lg;
     logCommands := flag_enable_command_logging sc;
     exportTranslations := flag_export_translations sc;
     prettyPrintJSON := flag_pretty_print_json sc;
     features := fs |}.

(** The names [initFeatures] registers, in the order of its calls. *)
Definition known : list string :=
  ["repos"; "issues"; "search"; "pull_requests"; "code_security";
   "experiments"].

(** A scenario with another result of [WithEnterpriseURLs]. *)
Definition setEnterpriseURLs (sc : Scenario) (result : option error)
  : Scenario :=
  {| environ := environ sc;
     flag_features := flag_features sc;
     flag_read_only := flag_read_only sc;
     flag_log_file := flag_log_file sc;
     flag_enable_command_logging := flag_enable_command_logging sc;
     flag_export_translations := flag_export_translations sc;
     flag_gh_host := flag_gh_host sc;
     flag_pretty_print_json := flag_pretty_print_json sc;
     cobra := cobra sc;
     openFile := openFile sc;
     withEnterpriseURLs := result;
     serve := serve sc;
     construct := construct sc;
     dumpTranslations := dumpTranslations sc;
     early := early sc;
     served := served sc;
     late := late sc |}.

(** Sample inputs: the logger [initLogger] makes for a log file, a
    configuration with transcript logging and pretty printing both on, and
    three runs of the process with the default flags. *)
Definition fileLogger : Logger := {| level := DebugLevel; Out := OutFile |}.

Definition transcriptConfig : runConfig :=
  {| readOnly := false;
     logger := fileLogger;
     logCommands := true;
     exportTranslations := false;
     prettyPrintJSON := true;
     features := registry |}.

Definition defaults (env : gmap string string) (d : dispatch) (o : outcome)
  : Scenario :=
  {| environ := env;
     flag_features := ["repos"; "issues"; "pull_requests"; "search"];
     flag_read_only := false;
     flag_log_file := EmptyString;
     flag_enable_command_logging := false;
     flag_export_translations := false;
     flag_gh_host := EmptyString;
     flag_pretty_print_json := false;
     cobra := d;
     openFile := None;
     withEnterpriseURLs := None;
     serve := o;
     construct := Returns [];
     dumpTranslations := Returns [];
     early := [];
     served := [];
     late := [] |}.

Definition withToken : gmap string string :=
  {[ "GITHUB_PERSONAL_ACCESS_TOKEN" := "secret" ]}.

Definition unknownFeature : Scenario :=
  defaults (<["GITHUB_FEATURES" := "bogus"]> withToken) DispatchStdio
           SignalFirst.

Definition interrupted : Scenario :=
  defaults withToken DispatchStdio SignalFirst.

Definition unknownFlag : Scenario :=
  defaults withToken
           (DispatchError "unknown flag: --bogus"
                          ["Error: unknown flag: --bogus"])
           SignalFirst.

(** Further sample inputs: pretty printing without transcript logging, and
    a run with a log file and no token. *)
Definition prettyOnly : runConfig :=
  {| readOnly := false;
     logger := log_New;
     logCommands := false;
     exportTranslations := false;
     prettyPrintJSON := true;
     features := registry |}.

Definition logFileNoToken : Scenario :=
  {| environ := ∅;
     flag_features := ["repos"; "issues"; "pull_requests"; "search"];
     flag_read_only := false;
     flag_log_file := "server.log";
     flag_enable_command_logging := false;
     flag_export_translations := false;
     flag_gh_host := EmptyString;
     flag_pretty_print_json := false;
     cobra := DispatchStdio;
     openFile := None;
     withEnterpriseURLs := None;
     serve := SignalFirst;
     construct := Returns [];
     dumpTranslations := Returns [];
     early := [];
     served := [];
     late := [] |}.

(** A run with transcript logging and pretty printing on, in which the
    server reads a request, writes a response, reports a failed read and
    then returns the error of its loop. *)
Definition brokenLoop : Scenario :=
  {| environ := withToken;
     flag_features := ["repos"; "issues"; "pull_requests"; "search"];
     flag_read_only := false;
     flag_log_file := EmptyString;
     flag_enable_command_logging := true;
     flag_export_translations := false;
     flag_gh_host := EmptyString;
     flag_pretty_print_json := true;
     cobra := DispatchStdio;
     openFile := None;
     withEnterpriseURLs := None;
     serve := ListenReturned (Some "EOF");
     construct := Returns [];
     dumpTranslations := Returns [];
     early := [];
     served := [Reads "[1,2]"; Writes "[1,2]"; Reports "read failed"];
     late := [] |}.

(** A run with a log file and transcript logging, in which the
    construction prints a line, the server answers a request and reports an
    error, and a signal ends the wait. *)
Definition logFileServing : Scenario :=
  {| environ := withToken;
     flag_features := ["repos"; "issues"; "pull_requests"; "search"];
     flag_read_only := false;
     flag_log_file := "server.log";
     flag_enable_command_logging := true;
     flag_export_translations := true;
     flag_gh_host := EmptyString;
     flag_pretty_print_json := false;
     cobra := DispatchStdio;
     openFile := None;
     withEnterpriseURLs := None;
     serve := SignalFirst;
     construct := Returns [OnStderr "Could not read JSON config"];
     dumpTranslations := Returns [];
     early := [Reads "[1,2]"];
     served := [Writes "[3]"];
     late := [Reports "context canceled"] |}.

(** The exit status of the process and what it left behind: a [main] that
    returns ends the process with status 0. *)
Definition run (sc : Scenario) : Z * World :=
  match main sc initial with
  | (inl _, w) => (0, w)
  | (inr status, w) => (status, w)
  end.

End main.

(** * Properties of the feature registry *)

Section FeatureRegistry.

Import features.

Implicit Types (fs : FeatureSet) (name n : string) (f : Feature).

Lemma eqb_everything name :
  String.eqb name "everything" = bool_decide (name = "everything").
Proof.
  destruct (String.eqb_spec name "everything") as [E|E].
  - by rewrite bool_decide_eq_true_2.
  - by rewrite bool_decide_eq_false_2.
Qed.

Lemma IsEnabled_pure fs name : snd (IsEnabled name fs) = fs.
Proof.
  unfold IsEnabled. destruct (everythingOn fs); [done|].
  by destruct (Features fs !! name).
Qed.

Lemma EnableFeature_sentinel fs :
  EnableFeature "everything" fs
  = (None, {| Features := Features fs; everythingOn := true |}).
Proof. reflexivity. Qed.

Lemma EnableFeature_unknown fs name :
  name <> "everything" -> Features fs !! name = None ->
  EnableFeature name fs = (Some (does_not_exist name), fs).
Proof.
  intros Hne Hno. unfold EnableFeature.
  rewrite eqb_everything, bool_decide_eq_false_2 by done.
  by rewrite Hno.
Qed.

Lemma EnableFeature_known fs name f :
  name <> "everything" -> Features fs !! name = Some f ->
  EnableFeature name fs
  = (None, {| Features := <[name := switched_on f]> (Features fs);
              everythingOn := everythingOn fs |}).
Proof.
  intros Hne Hf. unfold EnableFeature.
  rewrite eqb_everything, bool_decide_eq_false_2 by done.
  by rewrite Hf.
Qed.

(** The table after any single enable: the entry of [name], if there is
    one and [name] is not the sentinel, is switched on; nothing else. *)
Lemma EnableFeature_table fs name :
  Features (snd (EnableFeature name fs))
  = if String.eqb name "everything" then Features fs
    else alter switched_on name (Features fs).
Proof.
  unfold EnableFeature. destruct (String.eqb name "everything"); [done|].
  destruct (Features fs !! name) as [f|] eqn:Hf; simpl.
  - apply map_eq. intros k. rewrite lookup_alter, lookup_insert.
    case_decide; subst; by rewrite ?Hf.
  - apply map_eq. intros k. rewrite lookup_alter.
    case_decide; subst; by rewrite ?Hf.
Qed.

Lemma EnableFeature_override fs name :
  everythingOn (snd (EnableFeature name fs))
  = String.eqb name "everything" || everythingOn fs.
Proof.
  unfold EnableFeature. destruct (String.eqb name "everything"); [done|].
  by destruct (Features fs !! name).
Qed.

Lemma EnableFeature_result fs name :
  fst (EnableFeature name fs)
  = if valid_name fs name then None else Some (does_not_exist name).
Proof.
  unfold EnableFeature, valid_name.
  destruct (String.eqb name "everything"); [done|]. simpl.
  by destruct (Features fs !! name) as [f|].
Qed.

Lemma EnableFeature_failed fs name :
  valid_name fs name = false -> snd (EnableFeature name fs) = fs.
Proof.
  unfold EnableFeature, valid_name.
  destruct (String.eqb name "everything"); [done|]. simpl.
  by destruct (Features fs !! name) as [f|].
Qed.

Lemma EnableFeature_valid fs name n :
  valid_name (snd (EnableFeature name fs)) n = valid_name fs n.
Proof.
  unfold valid_name. rewrite EnableFeature_table.
  destruct (String.eqb name "everything"); [done|].
  f_equal. apply bool_decide_ext. rewrite lookup_alter.
  case_decide; subst; [|done]. by rewrite fmap_is_Some.
Qed.

Lemma EnableFeatures_cons fs name names :
  EnableFeatures (name :: names) fs
  = match EnableFeature name fs with
    | (Some e, fs') => (Some e, fs')
    | (None, fs') => EnableFeatures names fs'
    end.
Proof.
  simpl. unfold bind. destruct (EnableFeature name fs) as [[e|] fs']; done.
Qed.

Lemma EnableFeatures_override fs names :
  everythingOn fs = true ->
  everythingOn (snd (EnableFeatures names fs)) = true.
Proof.
  revert fs. induction names as [|a names IH]; intros fs Hon; [done|].
  rewrite EnableFeatures_cons.
  pose proof (EnableFeature_override fs a) as Ho.
  destruct (EnableFeature a fs) as [[e|] fs']; simpl in *.
  - rewrite Ho, Hon. by rewrite orb_true_r.
  - apply IH. rewrite Ho, Hon. by rewrite orb_true_r.
Qed.

Lemma exec_override c fs :
  everythingOn fs = true -> everythingOn (exec c fs) = true.
Proof.
  intros Hon. destruct c as [n d e|n|n|ns]; simpl.
  - done.
  - by rewrite IsEnabled_pure.
  - rewrite EnableFeature_override, Hon. by rewrite orb_true_r.
  - by apply EnableFeatures_override.
Qed.

Lemma exec_all_override cs fs :
  everythingOn fs = true -> everythingOn (exec_all cs fs) = true.
Proof.
  revert fs. induction cs as [|c cs IH]; intros fs Hon; [done|].
  simpl. apply IH. by apply exec_override.
Qed.

Lemma enabled_override fs name :
  everythingOn fs = true -> enabled name fs = true.
Proof. intros Hon. unfold enabled, IsEnabled. by rewrite Hon. Qed.

(** C1. [EnableFeature("everything")] succeeds; its result and the override
    bit it leaves are the same whatever the table holds, and the table is
    left as it was; after it, and after any further calls on the set,
    [IsEnabled] answers true for every string, registered or not, whatever
    the stored bit. *)
Theorem enable_everything_overrides fs :
  EnableFeature "everything" fs
  = (None, {| Features := Features fs; everythingOn := true |})
  /\ (forall fs', fst (EnableFeature "everything" fs') = None
               /\ everythingOn (snd (EnableFeature "everything" fs')) = true
               /\ Features (snd (EnableFeature "everything" fs')) = Features fs')
  /\ (forall (cs : list call) (x : string),
        fst (IsEnabled x (exec_all cs (snd (EnableFeature "everything" fs))))
        = true).
Proof.
  split; [reflexivity|]. split; [by intros fs'|].
  intros cs x. apply enabled_override, exec_all_override. reflexivity.
Qed.

Lemma mem_string_false (x : string) (l : list string) :
  mem_string x l = false <-> x ∉ l.
Proof.
  unfold mem_string. induction l as [|y l IH]; simpl.
  - split; [intros _; apply not_elem_of_nil|done].
  - rewrite orb_false_iff, IH, not_elem_of_cons.
    destruct (String.eqb_spec x y); split; intros [? ?]; done.
Qed.

Lemma EnableFeature_other fs name n :
  n <> name ->
  Features (snd (EnableFeature name fs)) !! n = Features fs !! n.
Proof.
  intros Hne. rewrite EnableFeature_table.
  destruct (String.eqb name "everything"); [done|].
  by rewrite lookup_alter_ne.
Qed.

Lemma EnableFeatures_other fs names n :
  n ∉ names ->
  Features (snd (EnableFeatures names fs)) !! n = Features fs !! n.
Proof.
  revert fs. induction names as [|a names IH]; intros fs Hn; [done|].
  apply not_elem_of_cons in Hn as [Hna Hn].
  rewrite EnableFeatures_cons.
  pose proof (EnableFeature_other fs a n Hna) as Ha.
  destruct (EnableFeature a fs) as [[e|] fs']; simpl in *; [done|].
  by rewrite IH.
Qed.

Lemma EnableFeatures_no_sentinel fs names :
  "everything" ∉ names ->
  everythingOn (snd (EnableFeatures names fs)) = everythingOn fs.
Proof.
  revert fs. induction names as [|a names IH]; intros fs Hn; [done|].
  apply not_elem_of_cons in Hn as [Hna Hn].
  rewrite EnableFeatures_cons.
  pose proof (EnableFeature_override fs a) as Ha.
  rewrite eqb_everything, bool_decide_eq_false_2 in Ha by done.
  destruct (EnableFeature a fs) as [[e|] fs']; simpl in *; [done|].
  by rewrite IH.
Qed.

(** A call that does not mention [name] leaves its entry and the override
    bit alone. *)
Lemma exec_quiet c fs name :
  mentions name c = false ->
  everythingOn (exec c fs) = everythingOn fs
  /\ Features (exec c fs) !! name = Features fs !! name.
Proof.
  destruct c as [n d e|n|n|ns]; unfold mentions, exec; intros Hq.
  - split; [done|]. apply lookup_insert_ne.
    intros ->. by rewrite String.eqb_refl in Hq.
  - by rewrite IsEnabled_pure.
  - apply orb_false_iff in Hq as [Hn He]. split.
    + rewrite EnableFeature_override.
      rewrite String.eqb_sym. by rewrite He.
    + apply EnableFeature_other. intros ->. by rewrite String.eqb_refl in Hn.
  - apply orb_false_iff in Hq as [Hn He].
    apply mem_string_false in Hn, He. split.
    + by apply EnableFeatures_no_sentinel.
    + by apply EnableFeatures_other.
Qed.

Lemma exec_all_quiet cs fs name :
  forallb (fun c => negb (mentions name c)) cs = true ->
  everythingOn (exec_all cs fs) = everythingOn fs
  /\ Features (exec_all cs fs) !! name = Features fs !! name.
Proof.
  revert fs. induction cs as [|c cs IH]; intros fs Hq; [done|].
  simpl in Hq. apply andb_true_iff in Hq as [Hc Hq].
  apply negb_true_iff in Hc.
  destruct (exec_quiet c fs name Hc) as [Ho Hl].
  destruct (IH (exec c fs) Hq) as [Ho' Hl']. simpl.
  split; congruence.
Qed.

(** C2. [IsEnabled] answers true when the override bit is set; otherwise
    the stored bit of a registered name and false for a name that was never
    registered.  It returns a boolean in every case and leaves the set as
    it was.  In particular a feature registered with default [d] on a set
    without the override answers [d] as long as no later call registers it
    again or enables it or the sentinel. *)
Theorem IsEnabled_spec (table : gmap string Feature) (name : string) :
  IsEnabled name {| Features := table; everythingOn := true |}
  = (true, {| Features := table; everythingOn := true |})
  /\ IsEnabled name {| Features := table; everythingOn := false |}
     = (match table !! name with
        | Some feature => Enabled feature
        | None => false
        end, {| Features := table; everythingOn := false |})
  /\ (forall fs, snd (IsEnabled name fs) = fs)
  /\ (forall (description : string) (d : bool) (cs : list call),
        forallb (fun c => negb (mentions name c)) cs = true ->
        fst (IsEnabled name
               (exec_all cs
                  (snd (AddFeature name description d
                          {| Features := table; everythingOn := false |}))))
        = d).
Proof.
  split; [reflexivity|]. split.
  { unfold IsEnabled; simpl. by destruct (table !! name). }
  split.
  { intros fs. apply IsEnabled_pure. }
  intros description d cs Hq.
  destruct (exec_all_quiet cs
              (snd (AddFeature name description d
                      {| Features := table; everythingOn := false |}))
              name Hq) as [Ho Hl].
  unfold IsEnabled. rewrite Ho, Hl. simpl. by rewrite lookup_insert_eq.
Qed.

(** C6, as amended.  On a set without the override, enabling a registered
    name other than the sentinel succeeds and switches on the entry of that
    name only: its name and description stay, every other entry stays, the
    override bit stays, and [IsEnabled] answers as before for every other
    name. *)
Theorem EnableFeature_frame fs n f :
  everythingOn fs = false ->
  n <> "everything" ->
  Features fs !! n = Some f ->
  fst (EnableFeature n fs) = None
  /\ Features (snd (EnableFeature n fs)) !! n
     = Some {| Name := Name f; Description := Description f; Enabled := true |}
  /\ (forall m, m <> n ->
        Features (snd (EnableFeature n fs)) !! m = Features fs !! m)
  /\ everythingOn (snd (EnableFeature n fs)) = false
  /\ (forall m, m <> n ->
        fst (IsEnabled m (snd (EnableFeature n fs))) = fst (IsEnabled m fs)).
Proof.
  intros Hoff Hne Hf. rewrite (EnableFeature_known fs n f Hne Hf). simpl.
  split; [done|]. split; [apply lookup_insert_eq|].
  split; [intros m Hm; by apply lookup_insert_ne|]. split; [done|].
  intros m Hm. unfold IsEnabled; simpl. rewrite Hoff.
  rewrite lookup_insert_ne by done. by destruct (Features fs !! m).
Qed.

(** C9. Every entry of the table is stored under its own name: in the
    empty set, and after [AddFeature] and after [EnableFeature] on a set
    where it holds; hence after every program that starts from
    [NewFeatureSet]. *)
Theorem names_match_keys_invariant :
  names_match_keys NewFeatureSet
  /\ (forall fs name description enabled,
        names_match_keys fs ->
        names_match_keys (snd (AddFeature name description enabled fs)))
  /\ (forall fs name,
        names_match_keys fs ->
        names_match_keys (snd (EnableFeature name fs)))
  /\ (forall cs, names_match_keys (exec_all cs NewFeatureSet)).
Proof.
  assert (Hadd : forall fs name description enabled,
             names_match_keys fs ->
             names_match_keys (snd (AddFeature name description enabled fs))).
  { intros fs name description enabled Hfs. unfold names_match_keys; simpl.
    by apply map_Forall_insert_2. }
  assert (Hen : forall fs name,
             names_match_keys fs ->
             names_match_keys (snd (EnableFeature name fs))).
  { intros fs name Hfs. unfold names_match_keys.
    rewrite EnableFeature_table.
    destruct (String.eqb name "everything"); [done|].
    intros k f. rewrite lookup_alter. case_decide; [subst|by apply Hfs].
    destruct (Features fs !! k) as [g|] eqn:Hg; [|done].
    intros [= <-]. simpl. by apply (Hfs k g). }
  assert (Hmany : forall names fs,
             names_match_keys fs ->
             names_match_keys (snd (EnableFeatures names fs))).
  { induction names as [|a names IH]; intros fs Hfs; [done|].
    rewrite EnableFeatures_cons. specialize (Hen fs a Hfs).
    destruct (EnableFeature a fs) as [[e|] fs']; simpl in *; [done|].
    by apply IH. }
  assert (Hexec : forall c fs, names_match_keys fs -> names_match_keys (exec c fs)).
  { intros [n d e|n|n|ns] fs Hfs; simpl.
    - by apply Hadd.
    - by rewrite IsEnabled_pure.
    - by apply Hen.
    - by apply Hmany. }
  assert (Hempty : names_match_keys NewFeatureSet).
  { unfold names_match_keys; simpl. apply map_Forall_empty. }
  split; [done|]. split; [done|]. split; [done|].
  intros cs. generalize NewFeatureSet Hempty.
  induction cs as [|c cs IH]; intros fs Hfs; [done|].
  simpl. apply IH. by apply Hexec.
Qed.

(** C10. Enabling a name that is neither the sentinel nor a registered key
    returns the error "feature <name> does not exist" and leaves the set,
    table and override bit, exactly as it was. *)
Theorem EnableFeature_failure_atomic fs name :
  name <> "everything" ->
  Features fs !! name = None ->
  EnableFeature name fs
  = (Some ("feature " +:+ name +:+ " does not exist"), fs).
Proof.
  intros Hsentinel Habsent. unfold EnableFeature.
  destruct (String.eqb_spec name "everything") as [Heq|_].
  - by destruct Hsentinel.
  - by rewrite Habsent.
Qed.

Lemma enabled_eq fs n :
  enabled n fs
  = everythingOn fs || default false (Enabled <$> Features fs !! n).
Proof.
  unfold enabled, IsEnabled. destruct (everythingOn fs); [done|].
  by destruct (Features fs !! n).
Qed.

Lemma EnableFeature_mono fs name n :
  enabled n fs = true -> enabled n (snd (EnableFeature name fs)) = true.
Proof.
  rewrite !enabled_eq, EnableFeature_override, EnableFeature_table.
  destruct (String.eqb name "everything"); [done|]. simpl.
  destruct (everythingOn fs); [done|]. simpl.
  rewrite lookup_alter. case_decide; [subst|done].
  by destruct (Features fs !! n).
Qed.

Lemma EnableFeatures_mono fs names n :
  enabled n fs = true -> enabled n (snd (EnableFeatures names fs)) = true.
Proof.
  revert fs. induction names as [|a names IH]; intros fs Hn; [done|].
  rewrite EnableFeatures_cons.
  pose proof (EnableFeature_mono fs a n Hn) as Ha.
  destruct (EnableFeature a fs) as [[e|] fs']; simpl in *; [done|].
  by apply IH.
Qed.

Lemma EnableFeature_enables fs name :
  valid_name fs name = true ->
  enabled name (snd (EnableFeature name fs)) = true.
Proof.
  unfold valid_name.
  rewrite enabled_eq, EnableFeature_override, EnableFeature_table.
  destruct (String.eqb name "everything"); [done|]. simpl.
  intros [g Hg]%bool_decide_eq_true.
  destruct (everythingOn fs); [done|]. simpl.
  by rewrite lookup_alter_eq, Hg.
Qed.

(** A list of valid names is processed to its end. *)
Lemma EnableFeatures_valid fs names :
  Forall (fun n => valid_name fs n = true) names ->
  fst (EnableFeatures names fs) = None
  /\ (forall n, n ∈ names -> enabled n (snd (EnableFeatures names fs)) = true).
Proof.
  revert fs. induction names as [|a names IH]; intros fs Hv.
  { split; [done|]. intros n Hn. by apply elem_of_nil in Hn. }
  apply Forall_cons in Hv as [Ha Hv].
  rewrite EnableFeatures_cons.
  pose proof (EnableFeature_result fs a) as Hr. rewrite Ha in Hr.
  pose proof (EnableFeature_enables fs a Ha) as He.
  assert (Hv' : Forall (fun n => valid_name (snd (EnableFeature a fs)) n = true)
                       names).
  { eapply Forall_impl; [exact Hv|]. intros n Hn. simpl.
    by rewrite EnableFeature_valid. }
  destruct (EnableFeature a fs) as [[e|] fs']; simpl in *; [done|].
  destruct (IH fs' Hv') as [Hok Hen]. split; [done|].
  intros n [->|Hn]%elem_of_cons; [|by apply Hen].
  by apply EnableFeatures_mono.
Qed.

(** The first invalid name stops the loop: what follows it is not read. *)
Lemma EnableFeatures_stops fs pre bad post :
  Forall (fun n => valid_name fs n = true) pre ->
  valid_name fs bad = false ->
  EnableFeatures (pre ++ bad :: post) fs
  = (Some (does_not_exist bad), snd (EnableFeatures pre fs)).
Proof.
  revert fs. induction pre as [|a pre IH]; intros fs Hv Hbad.
  { simpl app. rewrite EnableFeatures_cons.
    pose proof (EnableFeature_result fs bad) as Hr. rewrite Hbad in Hr.
    pose proof (EnableFeature_failed fs bad Hbad) as Hs.
    destruct (EnableFeature bad fs) as [[e|] fs']; simpl in *; congruence. }
  apply Forall_cons in Hv as [Ha Hv].
  rewrite <- app_comm_cons, !EnableFeatures_cons.
  pose proof (EnableFeature_result fs a) as Hr. rewrite Ha in Hr.
  assert (Hv' : Forall (fun n => valid_name (snd (EnableFeature a fs)) n = true)
                       pre).
  { eapply Forall_impl; [exact Hv|]. intros n Hn. simpl.
    by rewrite EnableFeature_valid. }
  pose proof (EnableFeature_valid fs a bad) as Hb. rewrite Hbad in Hb.
  destruct (EnableFeature a fs) as [[e|] fs']; simpl in *; [done|].
  by apply IH.
Qed.

(** C3, as amended.  When [bad] is the first invalid name of the list,
    [EnableFeatures] returns the error of [bad] and the set is the one the
    names before [bad] produce, whatever follows [bad]: every name before
    [bad] is enabled, every name that does not occur before [bad] keeps its
    entry, and also its [IsEnabled] answer unless the sentinel occurs before
    [bad]. *)
Theorem EnableFeatures_short_circuit fs pre bad post :
  Forall (fun n => valid_name fs n = true) pre ->
  valid_name fs bad = false ->
  fst (EnableFeatures (pre ++ bad :: post) fs)
  = Some ("feature " +:+ bad +:+ " does not exist")
  /\ snd (EnableFeatures (pre ++ bad :: post) fs) = snd (EnableFeatures pre fs)
  /\ fst (EnableFeatures pre fs) = None
  /\ (forall n, n ∈ pre ->
        fst (IsEnabled n (snd (EnableFeatures (pre ++ bad :: post) fs))) = true)
  /\ (forall n, n ∉ pre ->
        Features (snd (EnableFeatures (pre ++ bad :: post) fs)) !! n
        = Features fs !! n)
  /\ ("everything" ∉ pre ->
      forall n, n ∉ pre ->
        fst (IsEnabled n (snd (EnableFeatures (pre ++ bad :: post) fs)))
        = fst (IsEnabled n fs)).
Proof.
  intros Hv Hbad. rewrite (EnableFeatures_stops fs pre bad post Hv Hbad).
  destruct (EnableFeatures_valid fs pre Hv) as [Hok Hen]. simpl.
  split; [done|]. split; [done|]. split; [done|].
  split; [exact Hen|]. split; [intros n Hn; by apply EnableFeatures_other|].
  intros Hs n Hn.
  change (enabled n (snd (EnableFeatures pre fs)) = enabled n fs).
  rewrite !enabled_eq.
  by rewrite EnableFeatures_no_sentinel, EnableFeatures_other.
Qed.

End FeatureRegistry.

Section FeatureRegistryExamples.

Import features.

(** "issues" registered disabled stays disabled while other names are
    registered, enabled and queried. *)
Lemma IsEnabled_spec_witness :
  fst (IsEnabled "issues"
         (exec_all [CallAddFeature "repos" "Repository related tools" true;
                    CallEnableFeature "code_security";
                    CallEnableFeatures ["repos"; "search"];
                    CallIsEnabled "issues"]
            (snd (AddFeature "issues" "Issues related tools" false
                    {| Features := ∅; everythingOn := false |}))))
  = false.
Proof.
  apply (proj2 (proj2 (proj2 (IsEnabled_spec ∅ "issues")))).
  vm_compute. reflexivity.
Defined.

(** Enabling "code_security" in the catalog leaves "issues" disabled. *)
Lemma EnableFeature_frame_witness :
  fst (IsEnabled "issues" (snd (EnableFeature "code_security" main.registry)))
  = false.
Proof.
  assert (Hoff : everythingOn main.registry = false) by reflexivity.
  assert (Hne : "code_security" <> "everything") by discriminate.
  assert (Hf : Features main.registry !! "code_security"
               = Some {| Name := "code_security";
                         Description := "Code security related tools";
                         Enabled := false |}) by (vm_compute; reflexivity).
  destruct (EnableFeature_frame main.registry "code_security" _ Hoff Hne Hf)
    as (_ & _ & _ & _ & Hframe).
  rewrite (Hframe "issues") by discriminate.
  vm_compute. reflexivity.
Defined.

(** A set in which the sentinel itself has been registered as a feature:
    enabling that registered name sets the override bit and leaves the
    entry's own bit off. *)
Lemma EnableFeature_frame_counterexample :
  let fs := snd (AddFeature "everything" "all tools" false NewFeatureSet) in
  everythingOn fs = false
  /\ Features fs !! "everything"
     = Some {| Name := "everything"; Description := "all tools";
               Enabled := false |}
  /\ everythingOn (snd (EnableFeature "everything" fs)) <> everythingOn fs
  /\ Features (snd (EnableFeature "everything" fs)) !! "everything"
     = Some {| Name := "everything"; Description := "all tools";
               Enabled := false |}.
Proof.
  vm_compute. repeat split; try reflexivity. discriminate.
Qed.

Lemma names_match_keys_invariant_witness :
  names_match_keys
    (snd (EnableFeature "repos"
            (snd (AddFeature "repos" "Repository related tools" false
                    NewFeatureSet)))).
Proof.
  destruct names_match_keys_invariant as (Hnew & Hadd & Hen & _).
  apply Hen, Hadd, Hnew.
Defined.

Lemma EnableFeature_failure_atomic_witness :
  EnableFeature "non-existent" NewFeatureSet
  = (Some "feature non-existent does not exist", NewFeatureSet).
Proof.
  apply (EnableFeature_failure_atomic NewFeatureSet "non-existent").
  - discriminate.
  - vm_compute. reflexivity.
Defined.

(** "repos" and "issues" before the unknown "bogus" are enabled, "search"
    after it is not. *)
Lemma EnableFeatures_short_circuit_witness :
  let after :=
    EnableFeatures ["repos"; "issues"; "bogus"; "search"] main.registry in
  fst after = Some "feature bogus does not exist"
  /\ fst (IsEnabled "repos" (snd after)) = true
  /\ fst (IsEnabled "issues" (snd after)) = true
  /\ Features (snd after) !! "search" = Features main.registry !! "search"
  /\ fst (IsEnabled "search" (snd after)) = false.
Proof.
  assert (Hv : Forall (fun n => valid_name main.registry n = true)
                      ["repos"; "issues"]).
  { repeat constructor. }
  assert (Hbad : valid_name main.registry "bogus" = false).
  { vm_compute. reflexivity. }
  destruct (EnableFeatures_short_circuit main.registry ["repos"; "issues"]
              "bogus" ["search"] Hv Hbad)
    as (Herr & _ & _ & Hen & Hkeep & Hsame).
  assert (Hin1 : "repos" ∈ ["repos"; "issues"]).
  { apply elem_of_cons. by left. }
  assert (Hin2 : "issues" ∈ ["repos"; "issues"]).
  { apply elem_of_cons. right. apply elem_of_cons. by left. }
  assert (Hout : "search" ∉ ["repos"; "issues"]).
  { intros H. apply elem_of_cons in H as [H|H]; [discriminate|].
    apply elem_of_cons in H as [H|H]; [discriminate|].
    by apply elem_of_nil in H. }
  assert (Hsent : "everything" ∉ ["repos"; "issues"]).
  { intros H. apply elem_of_cons in H as [H|H]; [discriminate|].
    apply elem_of_cons in H as [H|H]; [discriminate|].
    by apply elem_of_nil in H. }
  simpl app in *. cbv zeta.
  split; [exact Herr|]. split; [exact (Hen _ Hin1)|].
  split; [exact (Hen _ Hin2)|]. split; [exact (Hkeep _ Hout)|].
  rewrite (Hsame Hsent _ Hout). vm_compute. reflexivity.
Defined.

(** "repos" occurs after the first invalid name "bogus" and does not keep
    the state it had before the call: its first occurrence enabled it. *)
Lemma EnableFeatures_short_circuit_counterexample :
  let names := ["repos"; "bogus"; "repos"] in
  fst (EnableFeatures names main.registry)
  = Some "feature bogus does not exist"
  /\ fst (IsEnabled "repos" main.registry) = false
  /\ fst (IsEnabled "repos" (snd (EnableFeatures names main.registry))) = true
  /\ Features (snd (EnableFeatures names main.registry)) !! "repos"
     <> Features main.registry !! "repos".
Proof.
  vm_compute. repeat split; try reflexivity. discriminate.
Qed.

End FeatureRegistryExamples.

(** * Properties of the modelled library functions *)

Section Strings.

Import go_strings.

Lemma Split_nonempty (s : string) (sep : ascii) : Split s sep <> [].
Proof.
  destruct s as [|c s]; simpl; [done|].
  destruct (Ascii.eqb c sep); [done|]. by destruct (Split s sep).
Qed.

(** Joining the pieces with the separator gives the string back. *)
Lemma Join_Split (s : string) (sep : ascii) : Join (Split s sep) sep = s.
Proof.
  induction s as [|c s IH]; [done|].
  simpl. destruct (Ascii.eqb_spec c sep) as [->|Hc].
  - pose proof (Split_nonempty s sep) as Hne.
    destruct (Split s sep) as [|piece pieces]; [done|].
    simpl in *. by rewrite IH.
  - pose proof (Split_nonempty s sep) as Hne.
    destruct (Split s sep) as [|piece pieces]; [done|].
    destruct pieces as [|piece' pieces]; simpl in *; by rewrite <- IH.
Qed.

(** No piece contains the separator. *)
Lemma Split_pieces (s : string) (sep : ascii) :
  Forall (fun piece => occurs sep piece = false) (Split s sep).
Proof.
  induction s as [|c s IH]; simpl.
  - by repeat constructor.
  - destruct (Ascii.eqb c sep) eqn:Hc.
    + by constructor.
    + destruct (Split s sep) as [|piece pieces].
      * repeat constructor. simpl. by rewrite Hc.
      * apply Forall_cons in IH as [Hp Hps].
        constructor; [|done]. simpl. by rewrite Hc, Hp.
Qed.

(** What [TrimSpace] keeps does not start with ASCII white space... *)
Lemma trimLeft_head (s : list ascii) :
  match trimLeft s with
  | [] => True
  | c :: _ => asciiSpace c = false
  end.
Proof.
  induction s as [s IH] using (induction_ltof1 _ (@length ascii)).
  unfold ltof in IH.
  destruct s as [|c1 s1]; [done|]. simpl.
  destruct (asciiSpace c1) eqn:H1; [apply IH; simpl; lia|].
  destruct s1 as [|c2 s2]; [done|].
  destruct (space2 c1 c2); [apply IH; simpl; lia|].
  destruct s2 as [|c3 s3]; [done|].
  destruct (space3 c1 c2 c3); [apply IH; simpl; lia|done].
Qed.

(** ...and is a suffix of what it was given. *)
Lemma trimLeft_suffix (s : list ascii) : exists l, s = (l ++ trimLeft s)%list.
Proof.
  induction s as [s IH] using (induction_ltof1 _ (@length ascii)).
  unfold ltof in IH.
  destruct s as [|c1 s1]; [by exists []|]. simpl.
  destruct (asciiSpace c1).
  { destruct (IH s1) as [l Hl]; [simpl; lia|].
    exists (c1 :: l). simpl. by rewrite <- Hl. }
  destruct s1 as [|c2 s2]; [by exists []|].
  destruct (space2 c1 c2).
  { destruct (IH s2) as [l Hl]; [simpl; lia|].
    exists (c1 :: c2 :: l). simpl. by rewrite <- Hl. }
  destruct s2 as [|c3 s3]; [by exists []|].
  destruct (space3 c1 c2 c3); [|by exists []].
  destruct (IH s3) as [l Hl]; [simpl; lia|].
  exists (c1 :: c2 :: c3 :: l). simpl. by rewrite <- Hl.
Qed.

Lemma trimRightRev_head (r : list ascii) :
  match trimRightRev r with
  | [] => True
  | c :: _ => asciiSpace c = false
  end.
Proof.
  induction r as [r IH] using (induction_ltof1 _ (@length ascii)).
  unfold ltof in IH.
  destruct r as [|c1 r1]; [done|]. simpl.
  destruct (asciiSpace c1) eqn:H1; [apply IH; simpl; lia|].
  destruct r1 as [|c2 r2]; [done|].
  destruct (space2 c2 c1); [apply IH; simpl; lia|].
  destruct r2 as [|c3 r3]; [done|].
  destruct (space3 c3 c2 c1); [apply IH; simpl; lia|done].
Qed.

Lemma trimRightRev_suffix (r : list ascii) :
  exists l, r = (l ++ trimRightRev r)%list.
Proof.
  induction r as [r IH] using (induction_ltof1 _ (@length ascii)).
  unfold ltof in IH.
  destruct r as [|c1 r1]; [by exists []|]. simpl.
  destruct (asciiSpace c1).
  { destruct (IH r1) as [l Hl]; [simpl; lia|].
    exists (c1 :: l). simpl. by rewrite <- Hl. }
  destruct r1 as [|c2 r2]; [by exists []|].
  destruct (space2 c2 c1).
  { destruct (IH r2) as [l Hl]; [simpl; lia|].
    exists (c1 :: c2 :: l). simpl. by rewrite <- Hl. }
  destruct r2 as [|c3 r3]; [by exists []|].
  destruct (space3 c3 c2 c1); [|by exists []].
  destruct (IH r3) as [l Hl]; [simpl; lia|].
  exists (c1 :: c2 :: c3 :: l). simpl. by rewrite <- Hl.
Qed.

(** The trimmed string is a factor of the original. *)
Lemma TrimSpace_factor (s : string) :
  exists l r : list ascii,
    list_ascii_of_string s
    = (l ++ list_ascii_of_string (TrimSpace s) ++ r)%list.
Proof.
  unfold TrimSpace. rewrite list_ascii_of_string_of_list_ascii.
  destruct (trimLeft_suffix (list_ascii_of_string s)) as [l Hl].
  destruct (trimRightRev_suffix (rev (trimLeft (list_ascii_of_string s))))
    as [r Hr].
  exists l, (rev r). rewrite Hl at 1. f_equal.
  rewrite <- rev_app_distr, <- Hr. by rewrite rev_involutive.
Qed.

(** The trimmed string neither starts nor ends with ASCII white space. *)
Lemma TrimSpace_trimmed (s : string) :
  match list_ascii_of_string (TrimSpace s) with
  | [] => True
  | c :: _ => asciiSpace c = false
  end
  /\ match rev (list_ascii_of_string (TrimSpace s)) with
     | [] => True
     | c :: _ => asciiSpace c = false
     end.
Proof.
  unfold TrimSpace. rewrite list_ascii_of_string_of_list_ascii.
  set (t := trimLeft (list_ascii_of_string s)).
  split.
  - destruct (trimRightRev_suffix (rev t)) as [l Hl].
    apply (f_equal (@rev ascii)) in Hl.
    rewrite rev_involutive, rev_app_distr in Hl.
    pose proof (trimLeft_head (list_ascii_of_string s)) as Hhead.
    fold t in Hhead.
    destruct (rev (trimRightRev (rev t))) as [|c u]; [done|].
    rewrite Hl in Hhead. exact Hhead.
  - rewrite rev_involutive. apply trimRightRev_head.
Qed.

(** Sample values. *)
Example Split_sample :
  Split "repos, issues ,search" "," = ["repos"; " issues "; "search"]
  /\ Split EmptyString "," = [EmptyString]
  /\ Split "repos," "," = ["repos"; EmptyString].
Proof. repeat split. Qed.

Example TrimSpace_sample :
  TrimSpace " issues " = "issues"
  /\ TrimSpace (byte_of 9 +:+ "pull requests" +:+ byte_of 10) = "pull requests"
  /\ TrimSpace (byte_of 194 +:+ byte_of 160 +:+ "search"
                +:+ byte_of 226 +:+ byte_of 128 +:+ byte_of 137)
     = "search"
  /\ TrimSpace "   " = EmptyString.
Proof. repeat split. Qed.

End Strings.

(** * Properties of the bootstrap *)

Section FeatureResolution.

Import features main.

Lemma fold_left_snoc {A B : Type} (g : A -> B) (l : list A) (acc : list B) :
  fold_left (fun acc x => (acc ++ [g x])%list) l acc = (acc ++ map g l)%list.
Proof.
  revert acc. induction l as [|x l IH]; intros acc; simpl.
  - by rewrite app_nil_r.
  - rewrite IH. by rewrite <- app_assoc.
Qed.

Lemma resolveFeatures_env (env : gmap string string) (passed : list string) :
  resolveFeatures env passed
  = if isEmpty (Getenv env "GITHUB_FEATURES") then passed
    else map go_strings.TrimSpace
             (go_strings.Split (Getenv env "GITHUB_FEATURES") ",").
Proof.
  unfold resolveFeatures.
  destruct (isEmpty (Getenv env "GITHUB_FEATURES")); simpl; [done|].
  exact (fold_left_snoc go_strings.TrimSpace _ []).
Qed.

(** C4. When GITHUB_FEATURES is set to a non-empty value, the list of
    names [initFeatures] enables is that value split at its commas, each
    piece trimmed of white space, whatever the flags gave; when the variable
    is unset or empty it is the flag list.  The value
    "repos, issues ,search" gives repos, issues, search.  [initFeatures]
    enables exactly the resolved list on the catalog. *)
Theorem initFeatures_environment_precedence
  (env : gmap string string) (passedFeatures : list string) :
  (forall value,
      env !! "GITHUB_FEATURES" = Some value -> value <> EmptyString ->
      resolveFeatures env passedFeatures
      = map go_strings.TrimSpace (go_strings.Split value ","))
  /\ (env !! "GITHUB_FEATURES" = None \/ env !! "GITHUB_FEATURES" = Some EmptyString ->
      resolveFeatures env passedFeatures = passedFeatures)
  /\ (env !! "GITHUB_FEATURES" = Some "repos, issues ,search" ->
      resolveFeatures env passedFeatures = ["repos"; "issues"; "search"])
  /\ initFeatures env passedFeatures
     = match EnableFeatures (resolveFeatures env passedFeatures) registry with
       | (Some err, _) => inr err
       | (None, fs) => inl fs
       end.
Proof.
  split; [|split; [|split]].
  - intros value Hv Hne. rewrite resolveFeatures_env.
    unfold Getenv. rewrite Hv. simpl. unfold isEmpty.
    by destruct (String.eqb_spec value EmptyString).
  - intros Hv. rewrite resolveFeatures_env. unfold Getenv.
    by destruct Hv as [-> | ->].
  - intros Hv. rewrite resolveFeatures_env. unfold Getenv. rewrite Hv.
    vm_compute. reflexivity.
  - reflexivity.
Qed.

End FeatureResolution.

Section FeatureResolutionExamples.

Import features main.

(** With GITHUB_FEATURES set, the default flag list plays no part: "repos"
    from the flags is not enabled when the environment names only
    "issues" and "search". *)
Lemma initFeatures_environment_precedence_witness :
  resolveFeatures (env_features " issues,search ")
                  ["repos"; "issues"; "pull_requests"; "search"]
  = ["issues"; "search"]
  /\ resolveFeatures ∅ ["repos"; "issues"; "pull_requests"; "search"]
     = ["repos"; "issues"; "pull_requests"; "search"]
  /\ resolveFeatures (env_features "repos, issues ,search") ["experiments"]
     = ["repos"; "issues"; "search"].
Proof.
  split; [|split].
  - rewrite (proj1 (initFeatures_environment_precedence
                      (env_features " issues,search ")
                      ["repos"; "issues"; "pull_requests"; "search"])
               " issues,search ").
    + vm_compute. reflexivity.
    + vm_compute. reflexivity.
    + discriminate.
  - apply (proj1 (proj2 (initFeatures_environment_precedence ∅ _))).
    left. vm_compute. reflexivity.
  - apply (proj1 (proj2 (proj2 (initFeatures_environment_precedence
                                  (env_features "repos, issues ,search") _)))).
    vm_compute. reflexivity.
Defined.

End FeatureResolutionExamples.

Section Scanner.

Import json.

Ltac scanner_cases :=
  repeat match goal with
         | |- context [if ?b then _ else _] => destruct b
         | |- context [match ?ps with [] => _ | _ :: _ => _ end] => destruct ps
         | |- context [match ?k with
                       | parseObjectKey => _
                       | parseObjectValue => _
                       | parseArrayValue => _
                       end] => destruct k
         end;
  split; simpl; intros; solve [eauto | discriminate].

Lemma apply_sound (f : stepFn) (s : scanner) (c : ascii) :
  step s = f -> recorded s -> sound (apply f s c).
Proof.
  intros Hf Hs. unfold recorded in Hs. rewrite Hf in Hs.
  destruct s as [st et ps er n]. simpl in *. subst st.
  unfold sound, recorded.
  destruct f;
    unfold apply, do_state0, do_stateESign, do_stateBeginValue,
      do_stateBeginString, do_stateEndValue, do_stateEndTop, expect, expectHex,
      pushParseState, popParseState, scan_error, set_step, set_parseState;
    simpl; scanner_cases.
Qed.

Lemma feed_sound (s : scanner) (c : ascii) : recorded s -> sound (feed s c).
Proof.
  intros Hs. unfold feed. apply apply_sound; [done|]. exact Hs.
Qed.

Lemma newScanner_recorded : recorded newScanner.
Proof. intros H. discriminate H. Qed.

Lemma verdict_error (s : scanner) :
  is_Some (err s) -> verdict s = err s.
Proof. intros [e He]. unfold verdict, eof. by rewrite He. Qed.

(** [eof] reports an error only together with its message. *)
Lemma eof_error (s : scanner) :
  fst (eof s) = scanError -> is_Some (err (snd (eof s))).
Proof.
  unfold eof. destruct (err s) as [e|] eqn:He; simpl; [by rewrite He; eauto|].
  destruct (endTop s); [done|].
  destruct (endTop (snd (apply (step s) s " "))); [done|].
  destruct (err (snd (apply (step s) s " "))) as [e|] eqn:He'; simpl;
    [rewrite He'|]; eauto.
Qed.

(** [Indent]'s loop and [checkValid]'s loop drive the scanner alike. *)
Lemma appendIndent_loop_verdict (src : list ascii) (prefix indent : string)
  (scan : scanner) (needIndent : bool) (depth : Z) (dst : string) :
  recorded scan ->
  verdict (fst (appendIndent_loop src prefix indent scan needIndent depth dst))
  = checkValid_loop src scan.
Proof.
  revert scan needIndent depth dst.
  induction src as [|c src IH]; intros scan needIndent depth dst Hs.
  { reflexivity. }
  simpl. destruct (feed_sound scan c Hs) as [Hrec Herr].
  destruct (feed scan c) as [v scan'] eqn:Hfeed. simpl in Hrec, Herr.
  destruct v;
    try (simpl; by apply verdict_error, Herr);
    try (by apply IH);
    destruct (needIndent && _); simpl;
    repeat match goal with
           | |- context [if ?b then _ else _] => destruct b
           end;
    by apply IH.
Qed.

(** [Indent] fails exactly when [checkValid] does, with the same error. *)
Lemma Indent_checkValid (src prefix indent : string) :
  match Indent src prefix indent with
  | inr e => checkValid src = Some e
  | inl _ => checkValid src = None
  end.
Proof.
  unfold Indent, checkValid.
  pose proof (appendIndent_loop_verdict (list_ascii_of_string src) prefix
                indent newScanner false 0 EmptyString newScanner_recorded)
    as Hv.
  destruct (appendIndent_loop _ _ _ _ _ _ _) as [scan dst]. simpl in Hv.
  rewrite <- Hv. unfold verdict.
  pose proof (eof_error scan) as He.
  destruct (eof scan) as [v scan']. simpl in He.
  destruct v; try done.
  destruct He as [e He]; [done|]. by rewrite He.
Qed.

Lemma Indent_Valid (src prefix indent : string) :
  Valid src = true -> exists pretty, Indent src prefix indent = inl pretty.
Proof.
  unfold Valid. pose proof (Indent_checkValid src prefix indent) as H.
  destruct (Indent src prefix indent) as [pretty|e]; [by eauto|].
  by rewrite H.
Qed.

Lemma Indent_invalid (src prefix indent : string) :
  Valid src = false ->
  exists e, checkValid src = Some e /\ Indent src prefix indent = inr e.
Proof.
  unfold Valid. pose proof (Indent_checkValid src prefix indent) as H.
  destruct (Indent src prefix indent) as [pretty|e].
  - by rewrite H.
  - intros _. by exists e.
Qed.

(** Sample values: an object, with the quotation marks of its key. *)
Example Indent_sample :
  Indent ("{" +:+ String dquote "id" +:+ String dquote ":[1,{}],"
          +:+ String dquote "ok" +:+ String dquote ":true}")
         EmptyString (byte_of 9)
  = inl ("{" +:+ byte_of 10
         +:+ byte_of 9 +:+ String dquote "id" +:+ String dquote ": ["
         +:+ byte_of 10
         +:+ byte_of 9 +:+ byte_of 9 +:+ "1," +:+ byte_of 10
         +:+ byte_of 9 +:+ byte_of 9 +:+ "{}" +:+ byte_of 10
         +:+ byte_of 9 +:+ "]," +:+ byte_of 10
         +:+ byte_of 9 +:+ String dquote "ok" +:+ String dquote ": true"
         +:+ byte_of 10 +:+ "}").
Proof. vm_compute. reflexivity. Qed.

Example Valid_sample :
  Valid "[1, 2.5e+3, null]" = true
  /\ Valid " 12 " = true
  /\ Valid "[1,]" = false
  /\ Valid "01" = false
  /\ Valid EmptyString = false
  /\ checkValid "[1 2]" = Some "invalid character '2' after array element".
Proof. vm_compute. repeat split. Qed.

End Scanner.

Section OutputDecoration.

Import main.

Lemma JSONPrettyPrintWriter_Write_eq (w : Writer) (p : string) (world : World) :
  JSONPrettyPrintWriter_Write {| writer := w |} p world
  = match json.Indent p EmptyString (byte_of 9) with
    | inr err => ((0, Some err), world)
    | inl prettyJSON => Write w prettyJSON world
    end.
Proof.
  unfold JSONPrettyPrintWriter_Write. by destruct (json.Indent p EmptyString (byte_of 9)).
Qed.

(** C7. A write of bytes that are not valid JSON returns 0 and the
    scanner's error, and leaves the world as it was, whatever the underlying
    writer is: the underlying writer is not called.  A write of valid JSON is
    one write of the indented bytes to the underlying writer, whose result
    is returned. *)
Theorem JSONPrettyPrintWriter_Write_spec
  (w : Writer) (p : string) (world : World) :
  (json.Valid p = false ->
   exists err,
     json.checkValid p = Some err
     /\ JSONPrettyPrintWriter_Write {| writer := w |} p world
        = ((0, Some err), world))
  /\ (json.Valid p = true ->
      exists prettyJSON,
        json.Indent p EmptyString (byte_of 9) = inl prettyJSON
        /\ JSONPrettyPrintWriter_Write {| writer := w |} p world
           = Write w prettyJSON world).
Proof.
  rewrite JSONPrettyPrintWriter_Write_eq. split; intros Hp.
  - destruct (Indent_invalid p EmptyString (byte_of 9) Hp) as (e & Hc & Hi).
    exists e. by rewrite Hi.
  - destruct (Indent_Valid p EmptyString (byte_of 9) Hp) as (q & Hi).
    exists q. by rewrite Hi.
Qed.

(** C5, as amended.  With transcript logging and pretty printing both on,
    the protocol server writes to the pretty printer, which wraps the
    logging decorator, which wraps standard output.  A write of valid JSON
    sends the indented bytes to the logging decorator: the log sink and
    standard output both receive the indented bytes.  A write that is not
    valid JSON reaches neither. *)
Theorem serverOut_transcript (cfg : runConfig) (p : string) (world : World) :
  logCommands cfg = true ->
  prettyPrintJSON cfg = true ->
  serverOut cfg
  = asWriter {| writer := iolog.NewIOLogger os_Stdout (logger cfg) |}
  /\ (forall prettyJSON,
        json.Indent p EmptyString (byte_of 9) = inl prettyJSON ->
        Write (serverOut cfg) p world
        = ((len prettyJSON, None),
           snd (print_stdout prettyJSON
                  (snd (Infof (logger cfg) prettyJSON world)))))
  /\ (forall err,
        json.Indent p EmptyString (byte_of 9) = inr err ->
        Write (serverOut cfg) p world = ((0, Some err), world)).
Proof.
  intros Hlog Hpretty. unfold serverOut. rewrite Hlog, Hpretty.
  split; [reflexivity|].
  split; intros r Hr; simpl; rewrite JSONPrettyPrintWriter_Write_eq, Hr.
  - unfold iolog.NewIOLogger, iolog.IOLogger_Write, bind; simpl.
    by destruct (Infof (logger cfg) r world) as [[] world'].
  - reflexivity.
Qed.

End OutputDecoration.

Section OutputDecorationExamples.

Import main.

(** The compact array and its indented form. *)
Lemma JSONPrettyPrintWriter_Write_spec_witness :
  JSONPrettyPrintWriter_Write {| writer := os_Stdout |} "[1,2" initial
  = ((0, Some "unexpected end of JSON input"), initial)
  /\ JSONPrettyPrintWriter_Write {| writer := os_Stdout |} "[1,2]" initial
     = Write os_Stdout
             ("[" +:+ byte_of 10 +:+ byte_of 9 +:+ "1," +:+ byte_of 10
              +:+ byte_of 9 +:+ "2" +:+ byte_of 10 +:+ "]")
             initial.
Proof.
  split.
  - destruct (proj1 (JSONPrettyPrintWriter_Write_spec os_Stdout "[1,2" initial))
      as (err & Herr & Hw).
    + vm_compute. reflexivity.
    + rewrite Hw. vm_compute in Herr. injection Herr as <-. reflexivity.
  - destruct (proj2 (JSONPrettyPrintWriter_Write_spec os_Stdout "[1,2]" initial))
      as (pretty & Hp & Hw).
    + vm_compute. reflexivity.
    + rewrite Hw. vm_compute in Hp. injection Hp as <-. reflexivity.
Defined.

Lemma serverOut_transcript_witness :
  Write (serverOut transcriptConfig) "[1,2]" initial
  = ((10, None),
     {| stdout := ["[" +:+ byte_of 10 +:+ byte_of 9 +:+ "1," +:+ byte_of 10
                   +:+ byte_of 9 +:+ "2" +:+ byte_of 10 +:+ "]"];
        stderr := [];
        logfile := ["[" +:+ byte_of 10 +:+ byte_of 9 +:+ "1," +:+ byte_of 10
                    +:+ byte_of 9 +:+ "2" +:+ byte_of 10 +:+ "]"] |}).
Proof.
  rewrite (proj1 (proj2 (serverOut_transcript transcriptConfig "[1,2]" initial
                           eq_refl eq_refl))
             ("[" +:+ byte_of 10 +:+ byte_of 9 +:+ "1," +:+ byte_of 10
              +:+ byte_of 9 +:+ "2" +:+ byte_of 10 +:+ "]")).
  - vm_compute. reflexivity.
  - vm_compute. reflexivity.
Defined.

(** With both decorators on, the server writes the five compact bytes
    [[1,2]]; the transcript in the log file holds the ten indented bytes
    and not the compact ones. *)
Lemma serverOut_transcript_counterexample :
  logCommands transcriptConfig = true
  /\ prettyPrintJSON transcriptConfig = true
  /\ logfile (snd (Write (serverOut transcriptConfig) "[1,2]" initial))
     = ["[" +:+ byte_of 10 +:+ byte_of 9 +:+ "1," +:+ byte_of 10
        +:+ byte_of 9 +:+ "2" +:+ byte_of 10 +:+ "]"]
  /\ logfile (snd (Write (serverOut transcriptConfig) "[1,2]" initial))
     <> ["[1,2]"].
Proof.
  vm_compute. repeat split; try reflexivity. discriminate.
Qed.

End OutputDecorationExamples.

Section ProcessExit.

Import main.

Lemma snoc_not_nil {A : Type} (l : list A) (x : A) : (l ++ [x])%list <> [].
Proof. by destruct l. Qed.

Lemma external_call_eq (e : external) (w : World) :
  external_call e w
  = match e with
    | Returns printed => (inl tt, snd (print_outputs printed w))
    | Aborts printed diagnostic status =>
        (inr (Zpos status),
         snd (print_output diagnostic (snd (print_outputs printed w))))
    end.
Proof.
  destruct e as [printed|printed diagnostic status];
    cbv beta iota zeta delta [external_call andThen bind lift os_Exit pure ret];
    destruct (print_outputs printed w) as [[] w1]; cbn [fst snd]; [done|].
  by destruct (print_output diagnostic w1) as [[] w2].
Qed.

Lemma print_output_logfile (o : output) (w : World) :
  logfile (snd (print_output o w)) = logfile w.
Proof. by destruct o. Qed.

Lemma print_outputs_logfile (printed : list output) (w : World) :
  logfile (snd (print_outputs printed w)) = logfile w.
Proof.
  revert w. induction printed as [|o printed IH]; intros w; [done|].
  simpl. unfold bind.
  pose proof (print_output_logfile o w) as Ho.
  destruct (print_output o w) as [[] w1]. simpl in Ho. by rewrite IH.
Qed.

Lemma print_output_line (o : output) (w : World) :
  stdout (snd (print_output o w)) <> []
  \/ stderr (snd (print_output o w)) <> [].
Proof. destruct o; simpl; [left|right]; apply snoc_not_nil. Qed.

Lemma external_call_logfile (e : external) (w : World) :
  logfile (snd (external_call e w)) = logfile w.
Proof.
  rewrite external_call_eq. destruct e; simpl;
    by rewrite ?print_output_logfile, print_outputs_logfile.
Qed.

(** The calls of [startup]: whether they end the process, and what they
    leave. *)
Lemma startup_eq (sc : Scenario) (cfg : runConfig) (w : World) :
  startup sc cfg w
  = match external_call (construct sc) w with
    | (inr status, w') => (inr status, w')
    | (inl _, w') =>
        if exportTranslations cfg then external_call (dumpTranslations sc) w'
        else (inl tt, w')
    end.
Proof.
  cbv beta iota zeta delta [startup andThen bind pure ret].
  destruct (external_call (construct sc) w) as [[[]|status] w']; [|done].
  by destruct (exportTranslations cfg).
Qed.

Lemma startup_fst (sc : Scenario) (cfg : runConfig) (w : World) :
  fst (startup sc cfg w)
  = match startupAbort sc (exportTranslations cfg) with
    | Some status => inr (Zpos status)
    | None => inl tt
    end.
Proof.
  rewrite startup_eq, external_call_eq. unfold startupAbort.
  destruct (construct sc) as [printed|printed d status]; [|done].
  destruct (exportTranslations cfg); [|done].
  rewrite external_call_eq. by destruct (dumpTranslations sc).
Qed.

Lemma startup_logfile (sc : Scenario) (cfg : runConfig) (w : World) :
  logfile (snd (startup sc cfg w)) = logfile w.
Proof.
  rewrite startup_eq.
  pose proof (external_call_logfile (construct sc) w) as Hc.
  destruct (external_call (construct sc) w) as [[[]|status] w']; [|done].
  simpl in Hc. destruct (exportTranslations cfg); [|done].
  by rewrite external_call_logfile.
Qed.

Lemma startup_abort_line (sc : Scenario) (cfg : runConfig) (w : World)
  (status : positive) :
  startupAbort sc (exportTranslations cfg) = Some status ->
  stdout (snd (startup sc cfg w)) <> []
  \/ stderr (snd (startup sc cfg w)) <> [].
Proof.
  rewrite startup_eq, external_call_eq. unfold startupAbort.
  destruct (construct sc) as [printed|printed d st].
  2:{ intros _. apply print_output_line. }
  destruct (exportTranslations cfg); [|done].
  rewrite external_call_eq.
  destruct (dumpTranslations sc) as [printed'|printed' d st]; [done|].
  intros _. apply print_output_line.
Qed.

(** What one write through the output stream leaves, by the stream the
    logger writes to. *)
Lemma Write_serverOut_logfile (cfg : runConfig) (p : string) (w : World) :
  Out (logger cfg) = OutStderr ->
  logfile (snd (Write (serverOut cfg) p w)) = logfile w.
Proof.
  intros Hout. unfold serverOut.
  destruct (logCommands cfg), (prettyPrintJSON cfg); simpl;
    rewrite ?JSONPrettyPrintWriter_Write_eq;
    try destruct (json.Indent p EmptyString (byte_of 9)) as [q|err];
    repeat (progress (unfold iolog.IOLogger_Write, bind, Infof, emit; simpl;
                      rewrite ?Hout));
    done.
Qed.

Lemma Write_serverOut_stderr (cfg : runConfig) (p : string) (w : World) :
  Out (logger cfg) = OutFile ->
  stderr (snd (Write (serverOut cfg) p w)) = stderr w.
Proof.
  intros Hout. unfold serverOut.
  destruct (logCommands cfg), (prettyPrintJSON cfg); simpl;
    rewrite ?JSONPrettyPrintWriter_Write_eq;
    try destruct (json.Indent p EmptyString (byte_of 9)) as [q|err];
    repeat (progress (unfold iolog.IOLogger_Write, bind, Infof, emit; simpl;
                      rewrite ?Hout));
    done.
Qed.

Lemma perform_logfile (cfg : runConfig) (e : event) (w : World) :
  Out (logger cfg) = OutStderr ->
  logfile (snd (perform cfg e w)) = logfile w.
Proof.
  intros Hout. destruct e as [p|p|line]; simpl.
  - unfold serverIn, iolog.IOLogger_Read, Infof, emit. rewrite Hout.
    by destruct (logCommands cfg).
  - unfold bind. pose proof (Write_serverOut_logfile cfg p w Hout) as Hw.
    by destruct (Write (serverOut cfg) p w) as [r w1].
  - unfold errorLogger, Infof, emit. by rewrite Hout.
Qed.

Lemma perform_stderr (cfg : runConfig) (e : event) (w : World) :
  Out (logger cfg) = OutFile ->
  stderr (snd (perform cfg e w)) = stderr w.
Proof.
  intros Hout. destruct e as [p|p|line]; simpl.
  - unfold serverIn, iolog.IOLogger_Read, Infof, emit. rewrite Hout.
    by destruct (logCommands cfg).
  - unfold bind. pose proof (Write_serverOut_stderr cfg p w Hout) as Hw.
    by destruct (Write (serverOut cfg) p w) as [r w1].
  - unfold errorLogger, Infof, emit. by rewrite Hout.
Qed.

Lemma perform_all_logfile (cfg : runConfig) (events : list event) (w : World) :
  Out (logger cfg) = OutStderr ->
  logfile (snd (perform_all cfg events w)) = logfile w.
Proof.
  intros Hout. revert w. induction events as [|e events IH]; intros w; [done|].
  simpl. unfold bind. pose proof (perform_logfile cfg e w Hout) as He.
  destruct (perform cfg e w) as [[] w1]. simpl in He. by rewrite IH.
Qed.

Lemma perform_all_stderr (cfg : runConfig) (events : list event) (w : World) :
  Out (logger cfg) = OutFile ->
  stderr (snd (perform_all cfg events w)) = stderr w.
Proof.
  intros Hout. revert w. induction events as [|e events IH]; intros w; [done|].
  simpl. unfold bind. pose proof (perform_stderr cfg e w Hout) as He.
  destruct (perform cfg e w) as [[] w1]. simpl in He. by rewrite IH.
Qed.

(** The serving loop, step by step. *)
Lemma serveLoop_eq (sc : Scenario) (cfg : runConfig) (w : World) :
  serveLoop sc cfg w
  = let w1 := snd (perform_all cfg (early sc) w) in
    let w2 := snd (print_stderr banner w1) in
    let w3 := snd (perform_all cfg (served sc) w2) in
    match serve sc with
    | SignalFirst =>
        (None,
         snd (perform_all cfg (late sc)
                (snd (Infof (logger cfg) "shutting down server..." w3))))
    | ListenReturned (Some err) =>
        (Some ("error running server: " +:+ err), w3)
    | ListenReturned None => (None, w3)
    end.
Proof.
  cbv beta iota zeta delta [serveLoop bind ret].
  destruct (perform_all cfg (early sc) w) as [[] w1].
  cbn [snd]. cbv beta iota zeta delta [print_stderr].
  cbn [snd].
  destruct (perform_all cfg (served sc) _) as [[] w3].
  destruct (serve sc) as [|[err|]]; try done.
  cbn [snd]. destruct (Infof (logger cfg) _ w3) as [[] w4].
  cbn [snd]. by destruct (perform_all cfg (late sc) w4) as [[] w5].
Qed.

Lemma serveLoop_fst (sc : Scenario) (cfg : runConfig) (w : World) :
  fst (serveLoop sc cfg w)
  = match serve sc with
    | SignalFirst => None
    | ListenReturned (Some err) => Some ("error running server: " +:+ err)
    | ListenReturned None => None
    end.
Proof. rewrite serveLoop_eq. cbv zeta. by destruct (serve sc) as [|[err|]]. Qed.

Lemma runStdioServer_cases (sc : Scenario) (cfg : runConfig) (w : World) :
  runStdioServer sc cfg w
  = if isEmpty (Getenv (environ sc) "GITHUB_PERSONAL_ACCESS_TOKEN")
    then (inr 1,
          snd (emit (logger cfg) "GITHUB_PERSONAL_ACCESS_TOKEN not set" w))
    else match ghClient sc with
         | Some err =>
             (inl (Some ("failed to create GitHub client with host: " +:+ err)),
              w)
         | None =>
             match startup sc cfg w with
             | (inr status, w') => (inr status, w')
             | (inl _, w') =>
                 (inl (fst (serveLoop sc cfg w')), snd (serveLoop sc cfg w'))
             end
         end.
Proof.
  cbv beta iota zeta delta
    [runStdioServer andThen bind lift Logger_Fatal os_Exit pure ret emit
     print_stderr append_logfile].
  destruct (isEmpty (Getenv (environ sc) "GITHUB_PERSONAL_ACCESS_TOKEN")).
  - by destruct (Out (logger cfg)).
  - destruct (ghClient sc) as [err|]; [done|].
    destruct (startup sc cfg w) as [[[]|status] w']; [|done].
    by destruct (serveLoop sc cfg w') as [r w''].
Qed.

Lemma run_stdio (sc : Scenario) :
  cobra sc = DispatchStdio ->
  run sc
  = match initLogger sc (flag_log_file sc) with
    | inr err => (1, only_stderr ["Failed to initialize logger:" +:+ err])
    | inl lg =>
        match initFeatures (environ sc) (flag_features sc) with
        | inr err =>
            (1, only_stderr ["Failed to initialize features:" +:+ err])
        | inl fs =>
            match runStdioServer sc (configOf sc lg fs) initial with
            | (inr status, w) => (status, w)
            | (inl (Some err), w) =>
                (1, snd (print_stderr ("failed to run stdio server:" +:+ err) w))
            | (inl None, w) => (0, w)
            end
        end
    end.
Proof.
  intros Hc. unfold run, main.main, rootCmd_Execute. rewrite Hc.
  unfold stdioCmd_Run.
  destruct (initLogger sc (flag_log_file sc)) as [lg|err]; [|done].
  destruct (initFeatures (environ sc) (flag_features sc)) as [fs|err]; [|done].
  change {| readOnly := flag_read_only sc; logger := lg;
            logCommands := flag_enable_command_logging sc;
            exportTranslations := flag_export_translations sc;
            prettyPrintJSON := flag_pretty_print_json sc;
            features := fs |} with (configOf sc lg fs).
  cbv beta iota zeta delta [andThen bind].
  destruct (runStdioServer sc (configOf sc lg fs) initial) as [[[err|]|status] w];
    reflexivity.
Qed.

Lemma print_all_stderr (lines : list string) (w : World) :
  print_all print_stderr lines w
  = (tt, {| stdout := stdout w; stderr := (stderr w ++ lines)%list;
            logfile := logfile w |}).
Proof.
  revert w. induction lines as [|line lines IH]; intros w; simpl.
  - unfold ret. rewrite app_nil_r. by destruct w.
  - unfold bind. simpl. rewrite IH. simpl. by rewrite <- app_assoc.
Qed.

Lemma print_all_stdout (lines : list string) (w : World) :
  print_all print_stdout lines w
  = (tt, {| stdout := (stdout w ++ lines)%list; stderr := stderr w;
            logfile := logfile w |}).
Proof.
  revert w. induction lines as [|line lines IH]; intros w; simpl.
  - unfold ret. rewrite app_nil_r. by destruct w.
  - unfold bind. simpl. rewrite IH. simpl. by rewrite <- app_assoc.
Qed.

Lemma run_error (sc : Scenario) (err : error) (printed : list string) :
  cobra sc = DispatchError err printed ->
  run sc = (1, {| stdout := [err]; stderr := printed; logfile := [] |}).
Proof.
  intros Hc. unfold run, main.main, rootCmd_Execute. rewrite Hc.
  cbv beta iota zeta delta [andThen bind lift pure ret os_Exit].
  by rewrite print_all_stderr.
Qed.

Lemma run_other (sc : Scenario) (printed : list string) :
  cobra sc = DispatchOther printed ->
  run sc = (0, {| stdout := printed; stderr := []; logfile := [] |}).
Proof.
  intros Hc. unfold run, main.main, rootCmd_Execute. rewrite Hc.
  cbv beta iota zeta delta [andThen bind lift pure ret os_Exit].
  by rewrite print_all_stdout.
Qed.

Lemma emit_stdout (lg : Logger) (line : string) (w : World) :
  stdout (snd (emit lg line w)) = stdout w.
Proof. unfold emit. by destruct (Out lg). Qed.

(** The run of the stdio command, by the first step that fails. *)
Lemma run_stdio_steps (sc : Scenario) :
  cobra sc = DispatchStdio ->
  run sc
  = match initLogger sc (flag_log_file sc) with
    | inr err => (1, only_stderr ["Failed to initialize logger:" +:+ err])
    | inl lg =>
        match initFeatures (environ sc) (flag_features sc) with
        | inr err =>
            (1, only_stderr ["Failed to initialize features:" +:+ err])
        | inl fs =>
            if isEmpty (Getenv (environ sc) "GITHUB_PERSONAL_ACCESS_TOKEN")
            then (1, snd (emit lg "GITHUB_PERSONAL_ACCESS_TOKEN not set"
                               initial))
            else match ghClient sc with
                 | Some err =>
                     (1, only_stderr
                           ["failed to run stdio server:"
                            +:+ "failed to create GitHub client with host: "
                            +:+ err])
                 | None =>
                     let cfg := configOf sc lg fs in
                     let w := snd (startup sc cfg initial) in
                     match startupAbort sc (flag_export_translations sc) with
                     | Some status => (Zpos status, w)
                     | None =>
                         match serve sc with
                         | ListenReturned (Some err) =>
                             (1, snd (print_stderr
                                        ("failed to run stdio server:"
                                         +:+ "error running server: " +:+ err)
                                        (snd (serveLoop sc cfg w))))
                         | _ => (0, snd (serveLoop sc cfg w))
                         end
                     end
                 end
        end
    end.
Proof.
  intros Hc. rewrite (run_stdio sc Hc).
  destruct (initLogger sc (flag_log_file sc)) as [lg|err]; [|done].
  destruct (initFeatures (environ sc) (flag_features sc)) as [fs|err]; [|done].
  rewrite runStdioServer_cases. cbn [logger configOf].
  destruct (isEmpty _); [done|].
  destruct (ghClient sc) as [err|]; [done|]. cbv zeta.
  pose proof (startup_fst sc (configOf sc lg fs) initial) as Hs.
  cbn [exportTranslations configOf] in Hs.
  destruct (startup sc (configOf sc lg fs) initial) as [[[]|status] w];
    cbn [fst snd] in *;
    destruct (startupAbort sc (flag_export_translations sc)) as [st|];
    try done.
  - rewrite serveLoop_fst. by destruct (serve sc) as [|[err|]].
  - by injection Hs as ->.
Qed.

(** C8, as amended.  An error that [rootCmd.Execute] returns is printed by
    [main] on standard output, after what cobra printed itself, and the
    status is 1.  A failure of the stdio command is not printed on standard
    output: a failure of the logger, of the features or of the client is
    the one line [log.Fatal] prints on standard error, a missing token is
    the one line the logger writes to its own output, a server error is the
    line [log.Fatal] adds to standard error after the serving loop, and the
    status is 1 in each case.  A construction step that ends the process
    does so with its own status, which is not zero.  When the server stops
    on a signal or its loop returns no error the status is 0. *)
Theorem exit_paths (sc : Scenario) :
  (forall err printed,
      cobra sc = DispatchError err printed ->
      run sc = (1, {| stdout := [err]; stderr := printed; logfile := [] |}))
  /\ (cobra sc = DispatchStdio ->
      (forall err,
          initLogger sc (flag_log_file sc) = inr err ->
          run sc = (1, only_stderr ["Failed to initialize logger:" +:+ err]))
      /\ (forall lg,
            initLogger sc (flag_log_file sc) = inl lg ->
            (forall err,
                initFeatures (environ sc) (flag_features sc) = inr err ->
                run sc
                = (1, only_stderr ["Failed to initialize features:" +:+ err]))
            /\ (forall fs,
                  initFeatures (environ sc) (flag_features sc) = inl fs ->
                  (Getenv (environ sc) "GITHUB_PERSONAL_ACCESS_TOKEN"
                   = EmptyString ->
                   run sc
                   = (1, snd (emit lg "GITHUB_PERSONAL_ACCESS_TOKEN not set"
                                   initial)))
                  /\ (Getenv (environ sc) "GITHUB_PERSONAL_ACCESS_TOKEN"
                      <> EmptyString ->
                      (forall err,
                          ghClient sc = Some err ->
                          run sc
                          = (1, only_stderr
                                  ["failed to run stdio server:"
                                   +:+ "failed to create GitHub client with host: "
                                   +:+ err]))
                      /\ (ghClient sc = None ->
                          (forall status,
                              startupAbort sc (flag_export_translations sc)
                              = Some status ->
                              fst (run sc) = Zpos status
                              /\ fst (run sc) <> 0)
                          /\ (startupAbort sc (flag_export_translations sc)
                              = None ->
                              (forall err,
                                  serve sc = ListenReturned (Some err) ->
                                  run sc
                                  = (1, snd (print_stderr
                                               ("failed to run stdio server:"
                                                +:+ "error running server: "
                                                +:+ err)
                                               (snd (serveLoop sc
                                                       (configOf sc lg fs)
                                                       (snd (startup sc
                                                               (configOf sc lg fs)
                                                               initial)))))))
                              /\ (serve sc = ListenReturned None
                                  \/ serve sc = SignalFirst ->
                                  run sc
                                  = (0, snd (serveLoop sc (configOf sc lg fs)
                                               (snd (startup sc
                                                       (configOf sc lg fs)
                                                       initial))))))))))).
Proof.
  split.
  { intros err printed Hc. by rewrite (run_error sc err printed Hc). }
  intros Hc. rewrite (run_stdio_steps sc Hc).
  split; [by intros err ->|].
  intros lg ->. split; [by intros err ->|].
  intros fs ->. unfold isEmpty.
  destruct (String.eqb_spec
              (Getenv (environ sc) "GITHUB_PERSONAL_ACCESS_TOKEN")
              EmptyString) as [He|He].
  { split; [done|]. intros Hne. by destruct Hne. }
  split; [intros Hemp; by destruct He|]. intros _.
  split; [by intros err ->|]. intros ->. cbv zeta.
  split.
  - intros status ->. by split.
  - intros ->. split.
    + by intros err ->.
    + by intros [-> | ->].
Qed.

End ProcessExit.

Section ProcessExitExamples.

Import main.

(** A run that cobra rejects prints its error on standard output.  A run
    that serves one request with transcript logging and pretty printing
    and then fails in its loop leaves the response on standard output and
    the error as the last line of standard error.  A run interrupted by a
    signal ends with status 0. *)
Lemma exit_paths_witness :
  run unknownFlag
  = (1, {| stdout := ["unknown flag: --bogus"];
           stderr := ["Error: unknown flag: --bogus"];
           logfile := [] |})
  /\ run brokenLoop
     = (1, {| stdout := ["[" +:+ byte_of 10 +:+ byte_of 9 +:+ "1,"
                         +:+ byte_of 10 +:+ byte_of 9 +:+ "2" +:+ byte_of 10
                         +:+ "]"];
              stderr := [banner;
                         "[1,2]";
                         "[" +:+ byte_of 10 +:+ byte_of 9 +:+ "1,"
                         +:+ byte_of 10 +:+ byte_of 9 +:+ "2" +:+ byte_of 10
                         +:+ "]";
                         "stdioserver" +:+ "read failed";
                         "failed to run stdio server:"
                         +:+ "error running server: " +:+ "EOF"];
              logfile := [] |})
  /\ run interrupted
     = (0, only_stderr [banner; "shutting down server..."]).
Proof.
  split; [|split].
  - apply (proj1 (exit_paths unknownFlag)). reflexivity.
  - destruct (proj2 (exit_paths brokenLoop) eq_refl) as (_ & Hlogger).
    destruct (Hlogger log_New eq_refl) as (_ & Hfeatures).
    destruct (Hfeatures (snd (features.EnableFeatures
                                ["repos"; "issues"; "pull_requests"; "search"]
                                registry)))
      as (_ & Htoken).
    { vm_compute. reflexivity. }
    destruct Htoken as (_ & Hclient); [vm_compute; discriminate|].
    destruct (Hclient eq_refl) as (_ & Hserve).
    destruct (Hserve eq_refl) as (Herror & _).
    rewrite (Herror "EOF" eq_refl). vm_compute. reflexivity.
  - destruct (proj2 (exit_paths interrupted) eq_refl) as (_ & Hlogger).
    destruct (Hlogger log_New eq_refl) as (_ & Hfeatures).
    destruct (Hfeatures (snd (features.EnableFeatures
                                ["repos"; "issues"; "pull_requests"; "search"]
                                registry)))
      as (_ & Htoken).
    { vm_compute. reflexivity. }
    destruct Htoken as (_ & Hclient); [vm_compute; discriminate|].
    destruct (Hclient eq_refl) as (_ & Hserve).
    destruct (Hserve eq_refl) as (_ & Hclean).
    rewrite Hclean by (by right). vm_compute. reflexivity.
Defined.

(** GITHUB_FEATURES names an unknown feature: the process ends with
    status 1, the error is on standard error and standard output is
    empty. *)
Lemma exit_paths_counterexample :
  cobra unknownFeature = DispatchStdio
  /\ environ unknownFeature !! "GITHUB_FEATURES" = Some "bogus"
  /\ run unknownFeature
     = (1, {| stdout := [];
              stderr := ["Failed to initialize features:feature bogus does not exist"];
              logfile := [] |}).
Proof.
  vm_compute. repeat split; reflexivity.
Qed.

End ProcessExitExamples.

(** * Further properties of the feature registry *)

Section FeatureRegistryComposition.

Import features.

Implicit Types (fs : FeatureSet) (name n : string) (f : Feature).

Lemma FeatureSet_eq fs fs' :
  Features fs = Features fs' -> everythingOn fs = everythingOn fs' -> fs = fs'.
Proof. destruct fs, fs'; simpl; by intros -> ->. Qed.

Lemma EnableFeature_state fs name :
  snd (EnableFeature name fs)
  = {| Features := if String.eqb name "everything" then Features fs
                   else alter switched_on name (Features fs);
       everythingOn := String.eqb name "everything" || everythingOn fs |}.
Proof.
  apply FeatureSet_eq; simpl.
  - apply EnableFeature_table.
  - apply EnableFeature_override.
Qed.

Lemma insert_after_alter (g : Feature -> Feature) (k : string) (x : Feature)
  (m : gmap string Feature) :
  <[k := x]> (alter g k m) = <[k := x]> m.
Proof.
  apply map_eq. intros j. rewrite !lookup_insert.
  case_decide; [done|]. by rewrite lookup_alter_ne.
Qed.

Lemma alter_twice (k : string) (m : gmap string Feature) :
  alter switched_on k (alter switched_on k m) = alter switched_on k m.
Proof.
  apply map_eq. intros j. rewrite !lookup_alter.
  repeat case_decide; try done. by destruct (m !! k).
Qed.

Lemma alter_swap (j k : string) (m : gmap string Feature) :
  alter switched_on j (alter switched_on k m)
  = alter switched_on k (alter switched_on j m).
Proof.
  apply map_eq. intros i. rewrite !lookup_alter.
  repeat case_decide; subst; try done; by destruct (m !! _).
Qed.

(** X1. Registering a name replaces whatever was stored under it and
    touches nothing else; a second registration or an earlier enable of the
    same name leaves no trace. *)
Theorem AddFeature_replaces fs name description enabled :
  Features (snd (AddFeature name description enabled fs)) !! name
  = Some {| Name := name; Description := description; Enabled := enabled |}
  /\ (forall m, m <> name ->
        Features (snd (AddFeature name description enabled fs)) !! m
        = Features fs !! m)
  /\ everythingOn (snd (AddFeature name description enabled fs))
     = everythingOn fs
  /\ (forall description0 enabled0,
        snd (AddFeature name description enabled
               (snd (AddFeature name description0 enabled0 fs)))
        = snd (AddFeature name description enabled fs))
  /\ (name <> "everything" ->
      snd (AddFeature name description enabled (snd (EnableFeature name fs)))
      = snd (AddFeature name description enabled fs)).
Proof.
  split; [apply lookup_insert_eq|].
  split; [intros m Hm; by apply lookup_insert_ne|].
  split; [done|]. split.
  - intros d0 e0. apply FeatureSet_eq; simpl; [|done].
    apply insert_insert_eq.
  - intros Hne. rewrite EnableFeature_state.
    rewrite eqb_everything, bool_decide_eq_false_2 by done.
    apply FeatureSet_eq; simpl; [|done]. apply insert_after_alter.
Qed.

(** X2. Enabling a name a second time changes nothing and returns what the
    first call returned. *)
Theorem EnableFeature_idempotent fs name :
  EnableFeature name (snd (EnableFeature name fs)) = EnableFeature name fs.
Proof.
  apply injective_projections.
  - rewrite !EnableFeature_result. by rewrite EnableFeature_valid.
  - rewrite !EnableFeature_state. apply FeatureSet_eq; simpl.
    + destruct (String.eqb name "everything"); [done|]. apply alter_twice.
    + by destruct (String.eqb name "everything").
Qed.

Lemma EnableFeature_commutes_state fs a b :
  snd (EnableFeature a (snd (EnableFeature b fs)))
  = snd (EnableFeature b (snd (EnableFeature a fs))).
Proof.
  rewrite !EnableFeature_state. apply FeatureSet_eq; simpl.
  - destruct (String.eqb a "everything"), (String.eqb b "everything");
      try done. apply alter_swap.
  - destruct (String.eqb a "everything"), (String.eqb b "everything");
      by destruct (everythingOn fs).
Qed.

(** X3. The set two enable calls leave does not depend on their order, and
    neither does the result of either call. *)
Theorem EnableFeature_commutes fs a b :
  snd (EnableFeature a (snd (EnableFeature b fs)))
  = snd (EnableFeature b (snd (EnableFeature a fs)))
  /\ fst (EnableFeature a (snd (EnableFeature b fs))) = fst (EnableFeature a fs)
  /\ fst (EnableFeature b (snd (EnableFeature a fs))) = fst (EnableFeature b fs).
Proof.
  split; [apply EnableFeature_commutes_state|].
  rewrite !EnableFeature_result. by rewrite !EnableFeature_valid.
Qed.

Lemma EnableFeatures_fold fs names :
  Forall (fun n => valid_name fs n = true) names ->
  EnableFeatures names fs
  = (None, fold_left (fun fs n => snd (EnableFeature n fs)) names fs).
Proof.
  revert fs. induction names as [|a names IH]; intros fs Hv; [done|].
  apply Forall_cons in Hv as [Ha Hv].
  rewrite EnableFeatures_cons. simpl fold_left.
  pose proof (EnableFeature_result fs a) as Hr. rewrite Ha in Hr.
  assert (Hv' : Forall (fun n => valid_name (snd (EnableFeature a fs)) n = true)
                       names).
  { eapply Forall_impl; [exact Hv|]. intros n Hn. simpl.
    by rewrite EnableFeature_valid. }
  destruct (EnableFeature a fs) as [[e|] fs']; simpl in *; [done|].
  by apply IH.
Qed.

Lemma fold_EnableFeature_permutation fs names names' :
  names ≡ₚ names' ->
  fold_left (fun fs n => snd (EnableFeature n fs)) names fs
  = fold_left (fun fs n => snd (EnableFeature n fs)) names' fs.
Proof.
  intros Hp. revert fs.
  induction Hp as [|x l l' _ IH|x y l|l l' l'' _ IH1 _ IH2]; intros fs; simpl.
  - done.
  - apply IH.
  - by rewrite EnableFeature_commutes_state.
  - by rewrite IH1.
Qed.

(** X4. When every name of the list is valid, [EnableFeatures] succeeds and
    the set it leaves is the same for every reordering of the list. *)
Theorem EnableFeatures_permutation fs names names' :
  Forall (fun n => valid_name fs n = true) names ->
  names ≡ₚ names' ->
  EnableFeatures names fs = EnableFeatures names' fs
  /\ fst (EnableFeatures names fs) = None.
Proof.
  intros Hv Hp.
  assert (Hv' : Forall (fun n => valid_name fs n = true) names').
  { apply Forall_forall. intros n Hn. rewrite <- Hp in Hn.
    by apply (proj1 (Forall_forall _ _) Hv). }
  rewrite (EnableFeatures_fold fs names Hv), (EnableFeatures_fold fs names' Hv').
  split; [|done]. f_equal. by apply fold_EnableFeature_permutation.
Qed.

(** X5. Enabling a concatenation is enabling the first list and, if that
    succeeded, the second list on the set it left; a failure in the first
    list is the result and the second list is not read. *)
Theorem EnableFeatures_app fs names1 names2 :
  EnableFeatures (names1 ++ names2) fs
  = match EnableFeatures names1 fs with
    | (Some e, fs') => (Some e, fs')
    | (None, fs') => EnableFeatures names2 fs'
    end.
Proof.
  revert fs. induction names1 as [|a names1 IH]; intros fs; [done|].
  rewrite <- app_comm_cons, !EnableFeatures_cons.
  destruct (EnableFeature a fs) as [[e|] fs']; [done|]. apply IH.
Qed.

Lemma EnableFeatures_ok_valid fs names :
  fst (EnableFeatures names fs) = None ->
  Forall (fun n => valid_name fs n = true) names.
Proof.
  revert fs. induction names as [|a names IH]; intros fs Hok; [constructor|].
  rewrite EnableFeatures_cons in Hok.
  pose proof (EnableFeature_result fs a) as Hr.
  destruct (valid_name fs a) eqn:Ha.
  - constructor; [done|].
    destruct (EnableFeature a fs) as [[e|] fs'] eqn:He; simpl in *; [done|].
    specialize (IH fs' Hok).
    eapply Forall_impl; [exact IH|]. intros n Hn. simpl in Hn.
    replace fs' with (snd (EnableFeature a fs)) in Hn by (by rewrite He).
    by rewrite EnableFeature_valid in Hn.
  - destruct (EnableFeature a fs) as [[e|] fs']; simpl in *; done.
Qed.

(** X6. [EnableFeatures] returns no error exactly when every name of the
    list is the sentinel or a registered key. *)
Theorem EnableFeatures_succeeds_iff fs names :
  fst (EnableFeatures names fs) = None
  <-> Forall (fun n => valid_name fs n = true) names.
Proof.
  split.
  - apply EnableFeatures_ok_valid.
  - intros Hv. by rewrite (EnableFeatures_fold fs names Hv).
Qed.

Lemma EnableFeature_entry fs name k :
  Features (snd (EnableFeature name fs)) !! k = Features fs !! k
  \/ Features (snd (EnableFeature name fs)) !! k
     = switched_on <$> Features fs !! k.
Proof.
  rewrite EnableFeature_table.
  destruct (String.eqb name "everything"); [by left|].
  rewrite lookup_alter. case_decide; [subst; by right|by left].
Qed.

Lemma EnableFeatures_entry fs names k :
  Features (snd (EnableFeatures names fs)) !! k = Features fs !! k
  \/ Features (snd (EnableFeatures names fs)) !! k
     = switched_on <$> Features fs !! k.
Proof.
  revert fs. induction names as [|a names IH]; intros fs; [by left|].
  rewrite EnableFeatures_cons.
  pose proof (EnableFeature_entry fs a k) as Ha.
  destruct (EnableFeature a fs) as [[e|] fs']; simpl in *; [done|].
  destruct (IH fs') as [-> | ->]; [done|].
  destruct Ha as [-> | ->]; [by right|].
  right. by destruct (Features fs !! k).
Qed.

(** X7. [EnableFeatures], whether it succeeds or fails, registers and
    removes nothing and rewrites no name or description; a feature that was
    enabled stays enabled and a set override stays set. *)
Theorem EnableFeatures_preserves fs names :
  dom (Features (snd (EnableFeatures names fs))) = dom (Features fs)
  /\ (forall k f,
        Features fs !! k = Some f ->
        exists f',
          Features (snd (EnableFeatures names fs)) !! k = Some f'
          /\ Name f' = Name f
          /\ Description f' = Description f
          /\ (Enabled f = true -> Enabled f' = true))
  /\ (everythingOn fs = true ->
      everythingOn (snd (EnableFeatures names fs)) = true).
Proof.
  split; [|split].
  - apply set_eq. intros k. rewrite !elem_of_dom.
    destruct (EnableFeatures_entry fs names k) as [-> | ->]; [done|].
    by rewrite fmap_is_Some.
  - intros k f Hf.
    destruct (EnableFeatures_entry fs names k) as [-> | ->]; rewrite Hf.
    + by exists f.
    + by exists (switched_on f).
  - apply EnableFeatures_override.
Qed.

Lemma EnableFeature_enabled fs a x :
  valid_name fs a = true ->
  enabled x (snd (EnableFeature a fs))
  = enabled x fs || String.eqb "everything" a || String.eqb x a.
Proof.
  intros Ha. rewrite (String.eqb_sym "everything" a).
  rewrite !enabled_eq, EnableFeature_state. cbn [Features everythingOn].
  unfold valid_name in Ha.
  destruct (String.eqb a "everything"); cbn [orb] in *.
  { by rewrite orb_true_r. }
  apply bool_decide_eq_true in Ha as [g Hg]. rewrite orb_false_r.
  rewrite lookup_alter.
  destruct (String.eqb_spec x a) as [->|Hx].
  - rewrite decide_True by done. rewrite Hg. cbn.
    by rewrite !orb_true_r.
  - rewrite decide_False by done. by rewrite orb_false_r.
Qed.

Lemma EnableFeatures_enabled_after fs names x :
  Forall (fun n => valid_name fs n = true) names ->
  enabled x (snd (EnableFeatures names fs))
  = enabled x fs || mem_string "everything" names || mem_string x names.
Proof.
  revert fs. induction names as [|a names IH]; intros fs Hv.
  { simpl. by rewrite !orb_false_r. }
  apply Forall_cons in Hv as [Ha Hv].
  rewrite EnableFeatures_cons.
  pose proof (EnableFeature_result fs a) as Hr. rewrite Ha in Hr.
  pose proof (EnableFeature_enabled fs a x Ha) as He.
  assert (Hv' : Forall (fun n => valid_name (snd (EnableFeature a fs)) n = true)
                       names).
  { eapply Forall_impl; [exact Hv|]. intros n Hn. simpl.
    by rewrite EnableFeature_valid. }
  destruct (EnableFeature a fs) as [[e|] fs']; cbn [fst snd] in *; [done|].
  rewrite (IH fs' Hv'), He. unfold mem_string. cbn [existsb].
  destruct (enabled x fs), (String.eqb "everything" a), (String.eqb x a),
    (existsb (String.eqb "everything") names),
    (existsb (String.eqb x) names); reflexivity.
Qed.

(** X8. After a successful [EnableFeatures], [IsEnabled] answers true for
    exactly the names that were enabled before or occur in the list, and
    for every name when the sentinel occurs in the list. *)
Theorem EnableFeatures_enabled fs names x :
  Forall (fun n => valid_name fs n = true) names ->
  fst (EnableFeatures names fs) = None
  /\ fst (IsEnabled x (snd (EnableFeatures names fs)))
     = fst (IsEnabled x fs)
       || mem_string "everything" names || mem_string x names.
Proof.
  intros Hv. split.
  - by rewrite (EnableFeatures_fold fs names Hv).
  - by apply EnableFeatures_enabled_after.
Qed.

End FeatureRegistryComposition.

(** * Further properties of feature resolution *)

Section FeatureInitialisation.

Import features main.

Lemma registry_table (n : string) :
  Features registry !! n
  = if mem_string n known
    then Some {| Name := n;
                 Description :=
                   default EmptyString
                           (Description <$> Features registry !! n);
                 Enabled := false |}
    else None.
Proof.
  unfold registry, catalog, bind, AddFeature, NewFeatureSet, known, mem_string.
  cbn [fst snd Features existsb].
  rewrite !lookup_insert, lookup_empty.
  repeat match goal with
         | |- context [String.eqb n ?k] =>
             destruct (String.eqb_spec n k) as [->|?]
         end;
    repeat case_decide; try done; congruence.
Qed.

Lemma valid_registry (n : string) :
  valid_name registry n = mem_string n ("everything" :: known).
Proof.
  unfold valid_name. rewrite registry_table.
  change (mem_string n ("everything" :: known))
    with (String.eqb n "everything" || mem_string n known).
  destruct (String.eqb n "everything"); [done|]. cbn [orb].
  destruct (mem_string n known).
  - by rewrite bool_decide_eq_true_2 by eauto.
  - rewrite bool_decide_eq_false_2; [done|]. by intros [? ?].
Qed.

Lemma enabled_registry (x : string) : enabled x registry = false.
Proof.
  rewrite enabled_eq, registry_table. by destruct (mem_string x known).
Qed.

Lemma initFeatures_eq (env : gmap string string) (passed : list string) :
  initFeatures env passed
  = match EnableFeatures (resolveFeatures env passed) registry with
    | (Some err, _) => inr err
    | (None, fs) => inl fs
    end.
Proof. reflexivity. Qed.

Lemma Forall_valid_registry (names : list string) :
  Forall (fun n => valid_name registry n = true) names
  <-> Forall (fun n => mem_string n ("everything" :: known) = true) names.
Proof.
  split; intros H; (eapply Forall_impl; [exact H|]); intros n; simpl;
    by rewrite valid_registry.
Qed.

(** A list of names either passes a test throughout or has a first name
    that fails it. *)
Lemma first_failure (P : string -> bool) (l : list string) :
  Forall (fun n => P n = true) l
  \/ exists pre bad post,
       l = (pre ++ bad :: post)%list
       /\ Forall (fun n => P n = true) pre /\ P bad = false.
Proof.
  induction l as [|a l IH]; [by left|].
  destruct (P a) eqn:Ha.
  - destruct IH as [IH|(pre & bad & post & -> & Hpre & Hbad)].
    + left. by constructor.
    + right. exists (a :: pre), bad, post. repeat split; [|done].
      by constructor.
  - right. exists [], a, l. by repeat split.
Qed.

(** X9. [initFeatures] succeeds exactly when every name of the resolved
    list is "everything" or one of the six names of the catalog. *)
Theorem initFeatures_succeeds_iff
  (env : gmap string string) (passedFeatures : list string) :
  (exists fs, initFeatures env passedFeatures = inl fs)
  <-> Forall (fun n => mem_string n ("everything" :: known) = true)
             (resolveFeatures env passedFeatures).
Proof.
  rewrite initFeatures_eq, <- Forall_valid_registry. split.
  - intros [fs Hfs]. apply EnableFeatures_ok_valid.
    by destruct (EnableFeatures _ registry) as [[e|] fs'].
  - intros Hv. rewrite (EnableFeatures_fold registry _ Hv). eauto.
Qed.

(** X10. In the set a successful [initFeatures] returns, the registered
    names are the six of the catalog, and [IsEnabled] answers true for
    exactly the names of the resolved list, or for every name when the
    resolved list holds "everything". *)
Theorem initFeatures_enabled
  (env : gmap string string) (passedFeatures : list string) (fs : FeatureSet) :
  initFeatures env passedFeatures = inl fs ->
  (forall x,
      fst (IsEnabled x fs)
      = mem_string "everything" (resolveFeatures env passedFeatures)
        || mem_string x (resolveFeatures env passedFeatures))
  /\ (forall x, is_Some (Features fs !! x) <-> mem_string x known = true).
Proof.
  rewrite initFeatures_eq. intros Hfs.
  assert (Hv : Forall (fun n => valid_name registry n = true)
                      (resolveFeatures env passedFeatures)).
  { apply EnableFeatures_ok_valid.
    by destruct (EnableFeatures _ registry) as [[e|] fs']. }
  assert (Hs : fs = snd (EnableFeatures (resolveFeatures env passedFeatures)
                                        registry)).
  { destruct (EnableFeatures _ registry) as [[e|] fs']; [done|].
    by injection Hfs as ->. }
  split.
  - intros x. change (fst (IsEnabled x fs)) with (enabled x fs). rewrite Hs.
    rewrite (EnableFeatures_enabled_after registry _ x Hv).
    by rewrite enabled_registry.
  - intros x. rewrite Hs.
    destruct (EnableFeatures_entry registry
                (resolveFeatures env passedFeatures) x) as [-> | ->];
      rewrite ?fmap_is_Some, registry_table;
      destruct (mem_string x known); split; try done; by intros [? ?].
Qed.

(** X11. The error of a failing [initFeatures] names the first name of the
    resolved list that is neither "everything" nor in the catalog. *)
Theorem initFeatures_error
  (env : gmap string string) (passedFeatures : list string) (err : error) :
  initFeatures env passedFeatures = inr err ->
  exists pre bad post,
    resolveFeatures env passedFeatures = (pre ++ bad :: post)%list
    /\ Forall (fun n => mem_string n ("everything" :: known) = true) pre
    /\ mem_string bad ("everything" :: known) = false
    /\ err = "feature " +:+ bad +:+ " does not exist".
Proof.
  rewrite initFeatures_eq. intros Herr.
  destruct (first_failure (valid_name registry)
              (resolveFeatures env passedFeatures))
    as [Hv|(pre & bad & post & Hsplit & Hpre & Hbad)].
  { rewrite (EnableFeatures_fold registry _ Hv) in Herr. done. }
  exists pre, bad, post. rewrite Hsplit in Herr |- *.
  rewrite (EnableFeatures_stops registry pre bad post Hpre Hbad) in Herr.
  injection Herr as <-.
  split; [done|]. split; [by apply Forall_valid_registry|].
  split; [by rewrite <- valid_registry|done].
Qed.

Lemma resolveFeatures_set (env : gmap string string) (passed : list string)
  (value : string) :
  env !! "GITHUB_FEATURES" = Some value -> value <> EmptyString ->
  resolveFeatures env passed
  = map go_strings.TrimSpace (go_strings.Split value ",").
Proof.
  intros Hv Hne. rewrite resolveFeatures_env. unfold Getenv, isEmpty.
  rewrite Hv. simpl. by destruct (String.eqb_spec value EmptyString).
Qed.

(** X12. A value of GITHUB_FEATURES with an entry that is empty or all
    white space (a trailing or doubled comma, a blank value) makes
    [initFeatures] fail: the empty name is not registered. *)
Theorem initFeatures_blank_entry
  (env : gmap string string) (passedFeatures : list string)
  (value piece : string) :
  env !! "GITHUB_FEATURES" = Some value ->
  value <> EmptyString ->
  piece ∈ go_strings.Split value "," ->
  go_strings.TrimSpace piece = EmptyString ->
  exists err, initFeatures env passedFeatures = inr err.
Proof.
  intros Hv Hne Hpiece Hblank. rewrite initFeatures_eq.
  destruct (EnableFeatures (resolveFeatures env passedFeatures) registry)
    as [[e|] fs] eqn:Hen; [by exists e|].
  assert (Hok : fst (EnableFeatures (resolveFeatures env passedFeatures)
                                    registry) = None) by (by rewrite Hen).
  apply EnableFeatures_ok_valid in Hok.
  rewrite (resolveFeatures_set env passedFeatures value Hv Hne) in Hok.
  assert (Hin : EmptyString ∈ map go_strings.TrimSpace
                                 (go_strings.Split value ",")).
  { rewrite <- Hblank. apply list_elem_of_fmap. by exists piece. }
  pose proof (proj1 (Forall_forall _ _) Hok _ Hin) as Hvalid.
  by vm_compute in Hvalid.
Qed.

Lemma length_Split (s : string) (sep : ascii) :
  length (go_strings.Split s sep) = S (go_strings.Count s sep).
Proof.
  induction s as [|c s IH]; [done|]. simpl.
  destruct (Ascii.eqb c sep); simpl; [by rewrite IH|].
  by destruct (go_strings.Split s sep).
Qed.

Lemma occurs_bytes (sep : ascii) (s : string) :
  go_strings.occurs sep s
  = existsb (fun c => Ascii.eqb c sep) (list_ascii_of_string s).
Proof. induction s as [|c s IH]; [done|]. simpl. by rewrite IH. Qed.

Lemma TrimSpace_occurs (sep : ascii) (s : string) :
  go_strings.occurs sep s = false ->
  go_strings.occurs sep (go_strings.TrimSpace s) = false.
Proof.
  rewrite !occurs_bytes. destruct (TrimSpace_factor s) as (l & r & ->).
  rewrite !existsb_app. intros H.
  apply orb_false_iff in H as [_ H]. by apply orb_false_iff in H as [H _].
Qed.

(** X13. When GITHUB_FEATURES is set and not empty, the resolved list has
    one name more than the value has commas; no name contains a comma and
    none starts or ends with an ASCII white-space byte. *)
Theorem resolveFeatures_clean
  (env : gmap string string) (passedFeatures : list string) (value : string) :
  env !! "GITHUB_FEATURES" = Some value ->
  value <> EmptyString ->
  length (resolveFeatures env passedFeatures)
  = S (go_strings.Count value ",")
  /\ Forall (fun name =>
               go_strings.occurs "," name = false
               /\ match list_ascii_of_string name with
                  | [] => True
                  | c :: _ => go_strings.asciiSpace c = false
                  end
               /\ match rev (list_ascii_of_string name) with
                  | [] => True
                  | c :: _ => go_strings.asciiSpace c = false
                  end)
            (resolveFeatures env passedFeatures).
Proof.
  intros Hv Hne. rewrite (resolveFeatures_set env passedFeatures value Hv Hne).
  split.
  - by rewrite length_map, length_Split.
  - apply Forall_map.
    eapply Forall_impl; [apply (Split_pieces value ",")|].
    intros piece Hpiece. simpl. split; [by apply TrimSpace_occurs|].
    apply TrimSpace_trimmed.
Qed.

End FeatureInitialisation.

(** * Further properties of the output stream *)

Section OutputModes.

Import main.

Lemma Write_logged (lg : Logger) (p : string) (world : World) :
  Write (iolog.NewIOLogger os_Stdout lg) p world
  = ((len p, None), snd (print_stdout p (snd (Infof lg p world)))).
Proof.
  unfold iolog.NewIOLogger, iolog.IOLogger_Write, bind; simpl.
  by destruct (Infof lg p world) as [[] world'].
Qed.

(** X14. Without transcript logging the logger is not part of the output
    stream.  With pretty printing, valid JSON reaches standard output
    indented and the result counts the indented bytes, and invalid JSON
    fails with nothing written; without it, the bytes go to standard output
    as they are. *)
Theorem serverOut_modes (cfg : runConfig) (p : string) (world : World) :
  (logCommands cfg = false -> prettyPrintJSON cfg = true ->
      Write (serverOut cfg) p world
      = match json.Indent p EmptyString (byte_of 9) with
        | inl prettyJSON =>
            ((len prettyJSON, None), snd (print_stdout prettyJSON world))
        | inr err => ((0, Some err), world)
        end)
  /\ (logCommands cfg = false -> prettyPrintJSON cfg = false ->
      Write (serverOut cfg) p world
      = ((len p, None), snd (print_stdout p world))).
Proof.
  unfold serverOut. split; intros -> ->.
  - simpl. rewrite JSONPrettyPrintWriter_Write_eq.
    by destruct (json.Indent p EmptyString (byte_of 9)).
  - reflexivity.
Qed.

(** X15. With transcript logging to a file, and standard output taking
    the bytes as [os_Stdout] does, what a write adds to the log file is what
    it adds to standard output.  Without pretty printing that is the bytes
    written, valid JSON or not, and the result is their count.  With pretty
    printing it is the indented bytes of valid JSON, and nothing at all,
    with the scanner's error as the result, for bytes that are not valid
    JSON. *)
Theorem transcript_matches_output (cfg : runConfig) (p : string) (world : World) :
  logCommands cfg = true ->
  Out (logger cfg) = OutFile ->
  (prettyPrintJSON cfg = false ->
   Write (serverOut cfg) p world
   = ((len p, None),
      {| stdout := (stdout world ++ [p])%list;
         stderr := stderr world;
         logfile := (logfile world ++ [p])%list |}))
  /\ (prettyPrintJSON cfg = true ->
      Write (serverOut cfg) p world
      = match json.Indent p EmptyString (byte_of 9) with
        | inl prettyJSON =>
            ((len prettyJSON, None),
             {| stdout := (stdout world ++ [prettyJSON])%list;
                stderr := stderr world;
                logfile := (logfile world ++ [prettyJSON])%list |})
        | inr err => ((0, Some err), world)
        end).
Proof.
  intros Hlog Hout. unfold serverOut. rewrite Hlog. split; intros ->.
  - rewrite Write_logged. unfold Infof, emit. by rewrite Hout.
  - cbn [Write asWriter]. rewrite JSONPrettyPrintWriter_Write_eq.
    destruct (json.Indent p EmptyString (byte_of 9)) as [q|err]; [|done].
    rewrite Write_logged. unfold Infof, emit. by rewrite Hout.
Qed.

End OutputModes.

(** * Further properties of the process *)

Section ProcessOutcomes.

Import main.

Lemma initLogger_setEnterpriseURLs (sc : Scenario) (r : option error)
  (path : string) :
  initLogger (setEnterpriseURLs sc r) path = initLogger sc path.
Proof. reflexivity. Qed.

Lemma isEmpty_false (s : string) : isEmpty s = false <-> s <> EmptyString.
Proof. unfold isEmpty. by destruct (String.eqb_spec s EmptyString). Qed.

Lemma grows_refl (w : World) : grows w w.
Proof. by repeat split. Qed.

Lemma grows_trans (w1 w2 w3 : World) : grows w1 w2 -> grows w2 w3 -> grows w1 w3.
Proof.
  intros (Ho & He & Hl) (Ho' & He' & Hl').
  repeat split; by etrans.
Qed.

Ltac one_more := first [reflexivity | eexists; reflexivity].

Lemma emit_grows (lg : Logger) (line : string) (w : World) :
  grows w (snd (emit lg line w)).
Proof. unfold emit. destruct (Out lg); repeat split; simpl; one_more. Qed.

Lemma Write_serverOut_grows (cfg : runConfig) (p : string) (w : World) :
  grows w (snd (Write (serverOut cfg) p w)).
Proof.
  unfold serverOut.
  destruct (logCommands cfg), (prettyPrintJSON cfg); simpl;
    rewrite ?JSONPrettyPrintWriter_Write_eq;
    try destruct (json.Indent p EmptyString (byte_of 9)) as [q|err];
    repeat (progress (unfold iolog.IOLogger_Write, bind, Infof, emit; simpl));
    try destruct (Out (logger cfg));
    repeat split; simpl; one_more.
Qed.

Lemma perform_grows (cfg : runConfig) (e : event) (w : World) :
  grows w (snd (perform cfg e w)).
Proof.
  destruct e as [p|p|line]; simpl.
  - unfold serverIn, iolog.IOLogger_Read, Infof.
    destruct (logCommands cfg); [apply emit_grows|apply grows_refl].
  - unfold bind. pose proof (Write_serverOut_grows cfg p w) as Hw.
    by destruct (Write (serverOut cfg) p w) as [r w1].
  - apply emit_grows.
Qed.

Lemma perform_all_grows (cfg : runConfig) (events : list event) (w : World) :
  grows w (snd (perform_all cfg events w)).
Proof.
  revert w. induction events as [|e events IH]; intros w; [apply grows_refl|].
  simpl. unfold bind. pose proof (perform_grows cfg e w) as He.
  destruct (perform cfg e w) as [[] w1]. simpl in He.
  eapply grows_trans; [exact He|apply IH].
Qed.

Lemma elem_of_prefix (x : string) (l l' : list string) :
  l `prefix_of` l' -> x ∈ l -> x ∈ l'.
Proof. intros [k ->] Hx. apply elem_of_app. by left. Qed.

(** The banner is on standard error after the serving loop. *)
Lemma serveLoop_banner (sc : Scenario) (cfg : runConfig) (w : World) :
  banner ∈ stderr (snd (serveLoop sc cfg w)).
Proof.
  rewrite serveLoop_eq. cbv zeta.
  set (w1 := snd (perform_all cfg (early sc) w)).
  set (w2 := snd (print_stderr banner w1)).
  set (w3 := snd (perform_all cfg (served sc) w2)).
  assert (H2 : banner ∈ stderr w2).
  { unfold w2. simpl. apply elem_of_app. right. apply elem_of_cons. by left. }
  assert (H3 : banner ∈ stderr w3).
  { eapply elem_of_prefix; [|exact H2].
    apply (perform_all_grows cfg (served sc) w2). }
  destruct (serve sc) as [|[err|]]; simpl; try done.
  eapply elem_of_prefix; [|exact H3].
  eapply grows_trans; [apply emit_grows|apply perform_all_grows].
Qed.

Lemma serveLoop_logfile (sc : Scenario) (cfg : runConfig) (w : World) :
  Out (logger cfg) = OutStderr ->
  logfile (snd (serveLoop sc cfg w)) = logfile w.
Proof.
  intros Hout. rewrite serveLoop_eq. cbv zeta.
  assert (H3 : logfile (snd (perform_all cfg (served sc)
                 (snd (print_stderr banner
                         (snd (perform_all cfg (early sc) w))))))
               = logfile w).
  { rewrite perform_all_logfile by done. simpl.
    by rewrite perform_all_logfile. }
  destruct (serve sc) as [|[err|]]; simpl; try done.
  rewrite perform_all_logfile by done.
  unfold Infof, emit. rewrite Hout. simpl. exact H3.
Qed.

(** With the logger on a file, the serving loop adds the banner to
    standard error and nothing else. *)
Lemma serveLoop_stderr (sc : Scenario) (cfg : runConfig) (w : World) :
  Out (logger cfg) = OutFile ->
  stderr (snd (serveLoop sc cfg w)) = (stderr w ++ [banner])%list.
Proof.
  intros Hout. rewrite serveLoop_eq. cbv zeta.
  assert (H3 : stderr (snd (perform_all cfg (served sc)
                 (snd (print_stderr banner
                         (snd (perform_all cfg (early sc) w))))))
               = (stderr w ++ [banner])%list).
  { rewrite perform_all_stderr by done. simpl.
    by rewrite perform_all_stderr. }
  destruct (serve sc) as [|[err|]]; simpl; try done.
  rewrite perform_all_stderr by done.
  unfold Infof, emit. rewrite Hout. simpl. exact H3.
Qed.

Lemma serveLoop_shutdown (sc : Scenario) (cfg : runConfig) (w : World) :
  Out (logger cfg) = OutFile ->
  serve sc = SignalFirst ->
  "shutting down server..." ∈ logfile (snd (serveLoop sc cfg w)).
Proof.
  intros Hout Hserve. rewrite serveLoop_eq, Hserve. cbv zeta. cbn [snd].
  eapply elem_of_prefix; [apply perform_all_grows|].
  unfold Infof, emit. rewrite Hout. simpl.
  apply elem_of_app. right. apply elem_of_cons. by left.
Qed.

(** X16. The process ends with status 0 exactly when cobra served a
    request of its own, or the stdio command got its logger, its features,
    a token and a client, no construction step ended the process, and then
    either a signal arrived first or the serving loop returned no error. *)
Theorem run_succeeds_iff (sc : Scenario) :
  fst (run sc) = 0
  <-> (exists printed, cobra sc = DispatchOther printed)
      \/ (cobra sc = DispatchStdio
          /\ (exists lg, initLogger sc (flag_log_file sc) = inl lg)
          /\ (exists fs,
                initFeatures (environ sc) (flag_features sc) = inl fs)
          /\ Getenv (environ sc) "GITHUB_PERSONAL_ACCESS_TOKEN" <> EmptyString
          /\ ghClient sc = None
          /\ startupAbort sc (flag_export_translations sc) = None
          /\ (serve sc = SignalFirst \/ serve sc = ListenReturned None)).
Proof.
  destruct (cobra sc) as [err printed| |printed] eqn:Hc.
  - rewrite (run_error sc err printed Hc). split; [done|].
    intros [[? ?]|[? _]]; done.
  - rewrite (run_stdio_steps sc Hc). rewrite <- isEmpty_false.
    destruct (initLogger sc (flag_log_file sc)) as [lg|err].
    2:{ split; [done|]. intros [[? ?]|(_ & [? ?] & _)]; done. }
    destruct (initFeatures (environ sc) (flag_features sc)) as [fs|err].
    2:{ split; [done|]. intros [[? ?]|(_ & _ & [? ?] & _)]; done. }
    destruct (isEmpty _).
    { split; [done|]. intros [[? ?]|(_ & _ & _ & ? & _)]; done. }
    destruct (ghClient sc) as [err|].
    { split; [done|]. intros [[? ?]|(_ & _ & _ & _ & ? & _)]; done. }
    cbv zeta.
    destruct (startupAbort sc (flag_export_translations sc)) as [status|].
    { split; [done|]. intros [[? ?]|(_ & _ & _ & _ & _ & ? & _)]; done. }
    destruct (serve sc) as [|[err|]].
    + split; [|done]. intros _. right. repeat split; eauto.
    + split; [done|].
      intros [[? ?]|(_ & _ & _ & _ & _ & _ & [?|?])]; done.
    + split; [|done]. intros _. right. repeat split; eauto.
  - rewrite (run_other sc printed Hc). split; [|done]. intros _. left. eauto.
Qed.

(** X17. In a run of the stdio command the banner is on standard error
    once the logger, the features, the token and the client were obtained
    and no construction step ended the process, whatever the serving loop
    does then; after a failure of the logger, of the features, of the token
    or of the client it is not. *)
Theorem banner_after_startup (sc : Scenario) :
  cobra sc = DispatchStdio ->
  ((exists lg, initLogger sc (flag_log_file sc) = inl lg) ->
   (exists fs, initFeatures (environ sc) (flag_features sc) = inl fs) ->
   Getenv (environ sc) "GITHUB_PERSONAL_ACCESS_TOKEN" <> EmptyString ->
   ghClient sc = None ->
   startupAbort sc (flag_export_translations sc) = None ->
   banner ∈ stderr (snd (run sc)))
  /\ ((exists err, initLogger sc (flag_log_file sc) = inr err)
      \/ (exists err,
            initFeatures (environ sc) (flag_features sc) = inr err)
      \/ Getenv (environ sc) "GITHUB_PERSONAL_ACCESS_TOKEN" = EmptyString
      \/ (exists err, ghClient sc = Some err) ->
      ~ banner ∈ stderr (snd (run sc))).
Proof.
  intros Hc. rewrite (run_stdio_steps sc Hc). split.
  - intros [lg ->] [fs ->] Htoken%isEmpty_false -> ->. rewrite Htoken.
    cbv zeta. destruct (serve sc) as [|[err|]]; cbn [snd].
    + apply serveLoop_banner.
    + simpl. apply elem_of_app. left. apply serveLoop_banner.
    + apply serveLoop_banner.
  - intros Hfail.
    destruct (initLogger sc (flag_log_file sc)) as [lg|err].
    2:{ simpl. intros [H|H%elem_of_nil]%elem_of_cons; [|done]. discriminate H. }
    destruct (initFeatures (environ sc) (flag_features sc)) as [fs|err].
    2:{ simpl. intros [H|H%elem_of_nil]%elem_of_cons; [|done]. discriminate H. }
    unfold isEmpty.
    destruct (String.eqb_spec
                (Getenv (environ sc) "GITHUB_PERSONAL_ACCESS_TOKEN")
                EmptyString) as [He|He].
    { unfold emit. destruct (Out lg); simpl.
      - intros [H|H%elem_of_nil]%elem_of_cons; [|done]. discriminate H.
      - by intros H%elem_of_nil. }
    destruct (ghClient sc) as [err|].
    { simpl. intros [H|H%elem_of_nil]%elem_of_cons; [|done]. discriminate H. }
    destruct Hfail as [[? ?]|[[? ?]|[?|[? ?]]]]; done.
Qed.

(** X18. Without a log file path the logger cannot fail to initialise
    and writes to standard error: no run appends anything to a log file. *)
Theorem no_log_file (sc : Scenario) :
  flag_log_file sc = EmptyString ->
  initLogger sc (flag_log_file sc) = inl log_New
  /\ logfile (snd (run sc)) = [].
Proof.
  intros Hpath.
  assert (Hlg : initLogger sc (flag_log_file sc) = inl log_New).
  { unfold initLogger. by rewrite Hpath. }
  split; [done|].
  destruct (cobra sc) as [err printed| |printed] eqn:Hc.
  - by rewrite (run_error sc err printed Hc).
  - rewrite (run_stdio_steps sc Hc), Hlg.
    destruct (initFeatures (environ sc) (flag_features sc)) as [fs|err];
      [|done].
    destruct (isEmpty _); [done|].
    destruct (ghClient sc) as [err|]; [done|]. cbv zeta.
    assert (Hstart : logfile (snd (startup sc (configOf sc log_New fs) initial))
                     = []) by apply startup_logfile.
    assert (Hloop : logfile (snd (serveLoop sc (configOf sc log_New fs)
                       (snd (startup sc (configOf sc log_New fs) initial))))
                    = []).
    { by rewrite serveLoop_logfile. }
    destruct (startupAbort sc (flag_export_translations sc)) as [status|];
      [done|].
    by destruct (serve sc) as [|[err|]].
  - by rewrite (run_other sc printed Hc).
Qed.

(** X19. With a log file that opens, the logger's lines go to the file
    only.  A missing token ends the process with status 1 and nothing on
    standard output or standard error.  When the run reaches the serving
    loop and a signal ends it, the shutdown line is in the file, and the
    banner is the only line the loop adds to standard error: what the
    server reads, writes and reports is not on standard error. *)
Theorem log_file_routing (sc : Scenario) (fs : features.FeatureSet) :
  cobra sc = DispatchStdio ->
  flag_log_file sc <> EmptyString ->
  openFile sc = None ->
  initFeatures (environ sc) (flag_features sc) = inl fs ->
  (Getenv (environ sc) "GITHUB_PERSONAL_ACCESS_TOKEN" = EmptyString ->
   run sc
   = (1, {| stdout := []; stderr := [];
            logfile := ["GITHUB_PERSONAL_ACCESS_TOKEN not set"] |}))
  /\ (Getenv (environ sc) "GITHUB_PERSONAL_ACCESS_TOKEN" <> EmptyString ->
      ghClient sc = None ->
      startupAbort sc (flag_export_translations sc) = None ->
      serve sc = SignalFirst ->
      fst (run sc) = 0
      /\ "shutting down server..." ∈ logfile (snd (run sc))
      /\ stderr (snd (run sc))
         = (stderr (snd (startup sc (configOf sc fileLogger fs) initial))
            ++ [banner])%list).
Proof.
  intros Hc Hpath Hopen Hfs. rewrite (run_stdio_steps sc Hc).
  assert (Hlg : initLogger sc (flag_log_file sc) = inl fileLogger).
  { unfold initLogger. apply isEmpty_false in Hpath. by rewrite Hpath, Hopen. }
  rewrite Hlg, Hfs. split.
  - intros Htoken. by rewrite Htoken.
  - intros Htoken%isEmpty_false Hclient Habort Hserve.
    rewrite Htoken, Hclient. cbv zeta. rewrite Habort, Hserve. cbn [fst snd].
    split; [done|]. split.
    + by apply serveLoop_shutdown.
    + by apply serveLoop_stderr.
Qed.

(** X20. When neither GH_HOST nor the gh-host flag names a host,
    [WithEnterpriseURLs] is not called: its result changes nothing of the
    run. *)
Theorem no_host_no_enterprise (sc : Scenario) (result : option error) :
  Getenv (environ sc) "GH_HOST" = EmptyString ->
  flag_gh_host sc = EmptyString ->
  run (setEnterpriseURLs sc result) = run sc.
Proof.
  intros Henv Hflag.
  assert (Hclient : forall sc', environ sc' = environ sc ->
                                flag_gh_host sc' = flag_gh_host sc ->
                                ghClient sc' = None).
  { intros sc' HE Hf. unfold ghClient, ghHost. by rewrite HE, Hf, Henv, Hflag. }
  destruct (cobra sc) as [err printed| |printed] eqn:Hc.
  - by rewrite (run_error sc err printed Hc),
      (run_error (setEnterpriseURLs sc result) err printed Hc).
  - rewrite (run_stdio_steps sc Hc),
      (run_stdio_steps (setEnterpriseURLs sc result) Hc).
    rewrite (Hclient sc eq_refl eq_refl),
      (Hclient (setEnterpriseURLs sc result) eq_refl eq_refl).
    reflexivity.
  - by rewrite (run_other sc printed Hc),
      (run_other (setEnterpriseURLs sc result) printed Hc).
Qed.

(** X21. The process never ends with status 1 in silence: a line has been
    printed on standard output or standard error, or appended to the log
    file. *)
Theorem failure_leaves_a_line (sc : Scenario) :
  fst (run sc) = 1 ->
  stdout (snd (run sc)) <> []
  \/ stderr (snd (run sc)) <> []
  \/ logfile (snd (run sc)) <> [].
Proof.
  destruct (cobra sc) as [err printed| |printed] eqn:Hc.
  - rewrite (run_error sc err printed Hc). intros _. by left.
  - rewrite (run_stdio_steps sc Hc).
    destruct (initLogger sc (flag_log_file sc)) as [lg|err];
      [|intros _; right; by left].
    destruct (initFeatures (environ sc) (flag_features sc)) as [fs|err];
      [|intros _; right; by left].
    destruct (isEmpty _).
    { intros _. right. unfold emit. destruct (Out lg); simpl; [by left|by right]. }
    destruct (ghClient sc) as [err|]; [intros _; right; by left|].
    cbv zeta.
    destruct (startupAbort sc (flag_export_translations sc)) as [status|]
      eqn:Habort.
    { intros _. cbn [snd].
      destruct (startup_abort_line sc (configOf sc lg fs) initial status Habort)
        as [H|H]; [by left|right; by left]. }
    destruct (serve sc) as [|[err|]]; [done| |done].
    intros _. right. left. cbn [snd]. simpl. apply snoc_not_nil.
  - by rewrite (run_other sc printed Hc).
Qed.

End ProcessOutcomes.

Section BlankWrites.

Import json main.

Lemma appendIndent_loop_blank (src : list ascii) (prefix indent : string)
  (k : Z) :
  forallb isSpace src = true ->
  appendIndent_loop src prefix indent
    {| step := stateBeginValue; endTop := false; parseState := [];
       err := None; bytes := k |} false 0 EmptyString
  = ({| step := stateBeginValue; endTop := false; parseState := [];
        err := None; bytes := k + Z.of_nat (length src) |}, EmptyString).
Proof.
  revert k. induction src as [|c src IH]; intros k Hsp.
  { simpl. by rewrite Z.add_0_r. }
  apply andb_true_iff in Hsp as [Hc Hsp].
  cbn [appendIndent_loop]. unfold feed. cbn [step apply].
  unfold do_stateBeginValue. rewrite Hc.
  cbn [endTop parseState err bytes].
  rewrite (IH (k + 1) Hsp). do 2 f_equal.
  rewrite length_cons. lia.
Qed.

(** X22. A write of no bytes, or of JSON white space only, fails with
    "unexpected end of JSON input": it returns 0 and the underlying writer
    is not called. *)
Theorem JSONPrettyPrintWriter_Write_blank
  (w : Writer) (p : string) (world : World) :
  forallb isSpace (list_ascii_of_string p) = true ->
  JSONPrettyPrintWriter_Write {| writer := w |} p world
  = ((0, Some "unexpected end of JSON input"), world).
Proof.
  intros Hsp. rewrite JSONPrettyPrintWriter_Write_eq.
  unfold Indent, newScanner.
  by rewrite (appendIndent_loop_blank _ _ _ 0 Hsp).
Qed.

End BlankWrites.

(** * Sample runs of the further properties *)

Section FurtherExamples.

Import features main.

Lemma AddFeature_replaces_witness :
  snd (AddFeature "issues" "Issues related tools" false
         (snd (EnableFeature "issues" registry)))
  = snd (AddFeature "issues" "Issues related tools" false registry).
Proof.
  apply (proj2 (proj2 (proj2 (proj2
           (AddFeature_replaces registry "issues" "Issues related tools"
                                false))))).
  discriminate.
Defined.

Lemma EnableFeatures_permutation_witness :
  EnableFeatures ["repos"; "issues"] registry
  = EnableFeatures ["issues"; "repos"] registry.
Proof.
  apply (EnableFeatures_permutation registry ["repos"; "issues"]
                                    ["issues"; "repos"]).
  - repeat constructor.
  - apply perm_swap.
Defined.

Lemma EnableFeatures_preserves_witness :
  exists f',
    Features (snd (EnableFeatures ["repos"; "bogus"] registry)) !! "repos"
    = Some f'
    /\ Name f' = "repos"
    /\ Description f' = "Repository related tools".
Proof.
  destruct (proj1 (proj2 (EnableFeatures_preserves registry ["repos"; "bogus"]))
              "repos"
              {| Name := "repos"; Description := "Repository related tools";
                 Enabled := false |})
    as (f' & Hf & Hn & Hd & _).
  - vm_compute. reflexivity.
  - exists f'. by repeat split.
Defined.

Lemma EnableFeatures_enabled_witness :
  fst (IsEnabled "code_security"
         (snd (EnableFeatures ["repos"; "issues"] registry))) = false
  /\ fst (IsEnabled "issues"
            (snd (EnableFeatures ["repos"; "issues"] registry))) = true.
Proof.
  assert (Hv : Forall (fun n => valid_name registry n = true)
                      ["repos"; "issues"]) by repeat constructor.
  split.
  - rewrite (proj2 (EnableFeatures_enabled registry ["repos"; "issues"]
                      "code_security" Hv)).
    vm_compute. reflexivity.
  - rewrite (proj2 (EnableFeatures_enabled registry ["repos"; "issues"]
                      "issues" Hv)).
    vm_compute. reflexivity.
Defined.

(** The default flags: the four default names are enabled, "code_security"
    is not. *)
Lemma initFeatures_enabled_witness :
  let fs := snd (EnableFeatures ["repos"; "issues"; "pull_requests"; "search"]
                                registry) in
  fst (IsEnabled "pull_requests" fs) = true
  /\ fst (IsEnabled "code_security" fs) = false.
Proof.
  cbv zeta.
  destruct (initFeatures_enabled ∅
              ["repos"; "issues"; "pull_requests"; "search"]
              (snd (EnableFeatures
                      ["repos"; "issues"; "pull_requests"; "search"] registry)))
    as [Hen _].
  - vm_compute. reflexivity.
  - split; rewrite Hen; vm_compute; reflexivity.
Defined.

Lemma initFeatures_error_witness :
  exists pre bad post,
    resolveFeatures (env_features "repos,bogus,issues") []
    = (pre ++ bad :: post)%list
    /\ Forall (fun n => mem_string n ("everything" :: known) = true) pre
    /\ mem_string bad ("everything" :: known) = false
    /\ "feature bogus does not exist" = "feature " +:+ bad +:+ " does not exist".
Proof.
  apply (initFeatures_error (env_features "repos,bogus,issues") []).
  vm_compute. reflexivity.
Defined.

(** A trailing comma. *)
Lemma initFeatures_blank_entry_witness :
  exists err, initFeatures (env_features "repos,") ["issues"] = inr err.
Proof.
  apply (initFeatures_blank_entry (env_features "repos,") ["issues"]
                                  "repos," EmptyString).
  - vm_compute. reflexivity.
  - discriminate.
  - apply elem_of_cons. right. apply elem_of_cons. by left.
  - vm_compute. reflexivity.
Defined.

Lemma resolveFeatures_clean_witness :
  length (resolveFeatures (env_features " repos , issues") []) = 2%nat.
Proof.
  apply (proj1 (resolveFeatures_clean (env_features " repos , issues") []
                                      " repos , issues" eq_refl
                                      ltac:(discriminate))).
Defined.

Lemma serverOut_modes_witness :
  Write (serverOut prettyOnly) "[1,2" initial
  = ((0, Some "unexpected end of JSON input"), initial).
Proof.
  rewrite (proj1 (serverOut_modes prettyOnly "[1,2" initial) eq_refl eq_refl).
  vm_compute. reflexivity.
Defined.

Lemma transcript_matches_output_witness :
  Write (serverOut transcriptConfig) "[1,2" initial
  = ((0, Some "unexpected end of JSON input"), initial).
Proof.
  rewrite (proj2 (transcript_matches_output transcriptConfig "[1,2" initial
                    eq_refl eq_refl) eq_refl).
  vm_compute. reflexivity.
Defined.

Lemma banner_after_startup_witness :
  banner ∈ stderr (snd (run brokenLoop))
  /\ ~ banner ∈ stderr (snd (run unknownFeature)).
Proof.
  split.
  - apply (proj1 (banner_after_startup brokenLoop eq_refl)).
    + by exists log_New.
    + eexists. vm_compute. reflexivity.
    + discriminate.
    + reflexivity.
    + reflexivity.
  - apply (proj2 (banner_after_startup unknownFeature eq_refl)).
    right. left. eexists. vm_compute. reflexivity.
Defined.

Lemma no_log_file_witness : logfile (snd (run interrupted)) = [].
Proof. apply (proj2 (no_log_file interrupted eq_refl)). Defined.

Lemma log_file_routing_witness :
  run logFileNoToken
  = (1, {| stdout := []; stderr := [];
           logfile := ["GITHUB_PERSONAL_ACCESS_TOKEN not set"] |})
  /\ stderr (snd (run logFileServing))
     = ["Could not read JSON config"; banner].
Proof.
  split.
  - apply (proj1 (log_file_routing logFileNoToken
                    (snd (EnableFeatures
                            ["repos"; "issues"; "pull_requests"; "search"]
                            registry))
                    eq_refl ltac:(discriminate) eq_refl
                    ltac:(vm_compute; reflexivity))).
    reflexivity.
  - destruct (proj2 (log_file_routing logFileServing
                       (snd (EnableFeatures
                               ["repos"; "issues"; "pull_requests"; "search"]
                               registry))
                       eq_refl ltac:(discriminate) eq_refl
                       ltac:(vm_compute; reflexivity))
                    ltac:(discriminate) eq_refl eq_refl eq_refl)
      as (_ & _ & Hstderr).
    rewrite Hstderr. vm_compute. reflexivity.
Defined.

Lemma no_host_no_enterprise_witness :
  run (setEnterpriseURLs interrupted (Some "parse error")) = run interrupted.
Proof.
  apply (no_host_no_enterprise interrupted (Some "parse error")).
  - vm_compute. reflexivity.
  - reflexivity.
Defined.

Lemma failure_leaves_a_line_witness :
  stdout (snd (run unknownFeature)) <> []
  \/ stderr (snd (run unknownFeature)) <> []
  \/ logfile (snd (run unknownFeature)) <> [].
Proof.
  apply (failure_leaves_a_line unknownFeature). vm_compute. reflexivity.
Defined.

Lemma JSONPrettyPrintWriter_Write_blank_witness :
  JSONPrettyPrintWriter_Write {| writer := os_Stdout |} EmptyString initial
  = ((0, Some "unexpected end of JSON input"), initial)
  /\ JSONPrettyPrintWriter_Write {| writer := os_Stdout |}
       (" " +:+ byte_of 10) initial
     = ((0, Some "unexpected end of JSON input"), initial).
Proof.
  split.
  - apply (JSONPrettyPrintWriter_Write_blank os_Stdout EmptyString initial).
    reflexivity.
  - apply (JSONPrettyPrintWriter_Write_blank os_Stdout (" " +:+ byte_of 10)
                                             initial).
    reflexivity.
Defined.

End FurtherExamples.
